(** * Goola dpos consensus engine: header verification, batch verification
      and block finalisation (consensus/dpos/consensus.go)

    The Go code is embedded shallowly.  Machine integers are [Z] with the
    wrap-around of the conversions written out, [big.Int] values are [Z],
    a Go [error] is an [option error] ([None] is [nil]), pointers that may be
    [nil] are options, slices are lists read with stdpp's lookup, and the
    goroutines of [VerifyHeaders] are a labelled transition system over the
    channels and the shared slices they use. *)

From Stdlib Require Import ZArith Lia Bool List.
From stdpp Require Import base numbers option list gmap.

Local Open Scope Z_scope.

(** ** Machine integers *)

(** Conversion to [uint64]: the low 64 bits. *)
Definition wrap_u64 (z : Z) : Z := z mod 2 ^ 64.

(** Conversion to [int64]: two's complement wrap-around. *)
Definition wrap_i64 (z : Z) : Z := (z + 2 ^ 63) mod 2 ^ 64 - 2 ^ 63.

(** The [Uint64] method of [big.Int]: the low 64 bits of the magnitude. *)
Definition Uint64 (n : Z) : Z := Z.abs n mod 2 ^ 64.

(** ** Headers, errors, engine and chain (types of packages outside this file) *)

Abbreviation common_Hash := Z.
Abbreviation common_Address := Z.

(** [types.Header], with the fields the engine reads or writes.  [GasLimit]
    and [GasUsed] are [uint64]; [Number], [Time] and [Difficulty] are
    [big.Int] pointers; [Extra] is a byte slice. *)
Record Header : Type := mkHeader {
  ParentHash : common_Hash;
  Coinbase : common_Address;
  Root : common_Hash;
  Difficulty : Z;
  Number : Z;
  GasLimit : Z;
  GasUsed : Z;
  Time : Z;
  Extra : list Byte.byte;
  MixDigest : common_Hash;
  Nonce : Z
}.

Definition set_Root (h : Header) (r : common_Hash) : Header :=
  mkHeader (ParentHash h) (Coinbase h) r (Difficulty h) (Number h) (GasLimit h)
           (GasUsed h) (Time h) (Extra h) (MixDigest h) (Nonce h).

(** The errors the engine returns.  The [fmt.Errorf] values carry the numbers
    they print. *)
Inductive error : Type :=
  | errExtraTooLong (have max : Z)        (* "extra-data too long: %d > %d" *)
  | ErrFutureBlock                        (* consensus.ErrFutureBlock *)
  | errZeroBlockTime                      (* "timestamp equals parent's" *)
  | errGasLimitCap (have max : Z)         (* "invalid gasLimit: have %v, max %v" *)
  | errGasUsed (have limit : Z)           (* "invalid gasUsed: have %d, gasLimit %d" *)
  | errGasLimitBound (have want limit : Z) (* "invalid gas limit: have %d, want %d += %d" *)
  | ErrInvalidNumber                      (* consensus.ErrInvalidNumber *)
  | errInvalidPoW                         (* "invalid proof-of-work" *)
  | ErrUnknownAncestor.                   (* consensus.ErrUnknownAncestor *)

#[global] Instance error_eq_dec : EqDecision error.
Proof. solve_decision. Defined.

(** The constants of package [params] that [verifyHeader] reads. *)
Record ProtocolParams : Type := mkParams {
  MaximumExtraDataSize : Z;
  GasLimitBoundDivisor : Z;
  MinGasLimit : Z
}.

(** The values these constants have in go-ethereum's protocol parameters;
    the examples use them. *)
Definition defaultParams : ProtocolParams := mkParams 32 1024 5000.

(** [params.ChainConfig], the field the engine depends on: the transition
    block at which the Byzantium rules start, if one is configured. *)
Record ChainConfig : Type := mkConfig {
  ByzantiumBlock : option Z
}.

(** Modelled from the spec: [ChainConfig.IsByzantium] of package params is
    not among the sources.  The lower reward applies from the configured
    transition block onward: the block is configured and not above [num]. *)
Definition IsByzantium (c : ChainConfig) (num : Z) : bool :=
  match ByzantiumBlock c with
  | Some b => b <=? num
  | None => false
  end.

(** [consensus.ChainReader], the methods the engine calls. *)
Record ChainReader : Type := mkChain {
  Config : ChainConfig;
  GetHeader : common_Hash -> Z -> option Header
}.

(** The engine: the two fields [VerifySeal] reads. *)
Record dops : Type := mkDops {
  fakeFail : Z;      (* uint64 *)
  fakeDelay : Z      (* time.Duration *)
}.

(** ** Protocol constants of the engine *)

Definition FrontierBlockReward : Z := 5 * 10 ^ 18.
Definition ByzantiumBlockReward : Z := 3 * 10 ^ 18.
(** [allowedFutureBlockTime], in seconds. *)
Definition allowedFutureBlockTime : Z := 15.

(** ** Header verification *)

Section Verification.

(** [Header.Hash()], computed by package [types]. *)
Variable Hash : Header -> common_Hash.
Variable params : ProtocolParams.
Variable ethash : dops.

(** [VerifySeal]: sleeps [fakeDelay], then fails exactly on block number
    [fakeFail]. Everything after that return is commented out in the
    source. *)
Definition VerifySeal (chain : ChainReader) (header : Header) : option error :=
  if fakeFail ethash =? Uint64 (Number header) then Some errInvalidPoW
  else None.

(** The gas-limit difference as the source computes it, in [int64] and
    converted back to [uint64]. *)
Definition gasLimitDiff (header parent : Header) : Z :=
  let diff := wrap_i64 (wrap_i64 (GasLimit parent) - wrap_i64 (GasLimit header)) in
  let diff := if diff <? 0 then wrap_i64 (diff * -1) else diff in
  wrap_u64 diff.

(** [verifyHeader]; [now] is [time.Now().Unix()] at the call. *)
Definition verifyHeader (now : Z) (chain : ChainReader) (header parent : Header)
    (seal : bool) : option error :=
  if Z.of_nat (length (Extra header)) >? MaximumExtraDataSize params then
    Some (errExtraTooLong (Z.of_nat (length (Extra header))) (MaximumExtraDataSize params))
  else if Time header >? now + allowedFutureBlockTime then
    Some ErrFutureBlock
  else if Time header <=? Time parent then
    Some errZeroBlockTime
  else
    let cap := 0x7fffffffffffffff in
    if GasLimit header >? cap then
      Some (errGasLimitCap (GasLimit header) cap)
    else if GasUsed header >? GasLimit header then
      Some (errGasUsed (GasUsed header) (GasLimit header))
    else
      let diff := gasLimitDiff header parent in
      let limit := GasLimit parent / GasLimitBoundDivisor params in
      if (diff >=? limit) || (GasLimit header <? MinGasLimit params) then
        Some (errGasLimitBound (GasLimit header) (GasLimit parent) limit)
      else if negb (Number header - Number parent =? 1) then
        Some ErrInvalidNumber
      else if seal then
        match VerifySeal chain header with
        | Some err => Some err
        | None => None
        end
      else None.

(** [VerifyHeader], the single-header entry point. *)
Definition VerifyHeader (now : Z) (chain : ChainReader) (header : Header)
    (seal : bool) : option error :=
  let number := Uint64 (Number header) in
  match GetHeader chain (Hash header) number with
  | Some _ => None
  | None =>
    match GetHeader chain (ParentHash header) (wrap_u64 (number - 1)) with
    | None => Some ErrUnknownAncestor
    | Some parent => verifyHeader now chain header parent seal
    end
  end.

(** [verifyHeaderWorker].  The outer option is [None] where the Go code
    panics on an index out of range. *)
Definition verifyHeaderWorker (now : Z) (chain : ChainReader)
    (headers : list Header) (seals : list bool) (index : nat)
    : option (option error) :=
  h ← headers !! index;
  parent ←
    match index with
    | O => Some (GetHeader chain (ParentHash h) (wrap_u64 (Uint64 (Number h) - 1)))
    | S i =>
      p ← headers !! i;
      Some (if Hash p =? ParentHash h then Some p else None)
    end;
  match parent with
  | None => Some (Some ErrUnknownAncestor)
  | Some parent =>
    match GetHeader chain (Hash h) (Uint64 (Number h)) with
    | Some _ => Some None
    | None =>
      seal ← seals !! index;
      Some (verifyHeader now chain h parent seal)
    end
  end.

End Verification.

(** ** Finalisation *)

(** Modelled from the spec: [state.StateDB] of package core/state is not
    among the sources.  The state is the accounts by address; an account has
    a balance, a nonce, a storage root and a code hash, and an address with
    no account reads as the empty account. *)
Record Account : Type := mkAccount {
  Balance : Z;
  AccountNonce : Z;
  StorageRoot : common_Hash;
  CodeHash : common_Hash
}.

(** Modelled from the spec: the account an address without one reads as. *)
Definition emptyAccount : Account := mkAccount 0 0 0 0.

(** Modelled from the spec: the account of [addr] in state [s]. *)
Definition getAccount (s : gmap Z Account) (addr : common_Address) : Account :=
  default emptyAccount (s !! addr).

(** Modelled from the spec: [StateDB.GetBalance]. *)
Definition GetBalance (s : gmap Z Account) (addr : common_Address) : Z :=
  Balance (getAccount s addr).

(** Modelled from the spec: [StateDB.AddBalance] credits [amount] to the
    account of [addr], creating the account when there is none. *)
Definition AddBalance (s : gmap Z Account) (addr : common_Address) (amount : Z)
    : gmap Z Account :=
  let a := getAccount s addr in
  <[addr := mkAccount (Balance a + amount) (AccountNonce a) (StorageRoot a) (CodeHash a)]> s.

(** The two objects [Finalize] receives by pointer and may write. *)
Record Store : Type := mkStore {
  stateDB : gmap Z Account;
  hdr : Header
}.

(** [accumulateRewards]: selects the block reward by chain progression and
    credits it to the coinbase. *)
Definition accumulateRewards (config : ChainConfig) (m : Store) : Store :=
  let blockReward :=
    if IsByzantium config (Number (hdr m)) then ByzantiumBlockReward
    else FrontierBlockReward in
  let reward := blockReward in
  mkStore (AddBalance (stateDB m) (Coinbase (hdr m)) reward) (hdr m).

Section Finalisation.

Variables Transaction Receipt Block : Type.
(** [StateDB.IntermediateRoot]: the digest of the current state. *)
Variable IntermediateRoot : bool -> gmap Z Account -> common_Hash.
(** [types.NewBlock]. *)
Variable NewBlock : Header -> list Transaction -> list Receipt -> Block.

(** [Finalize]: the block, the error (always [nil]) and the store it
    leaves. *)
Definition Finalize (chain : ChainReader) (m : Store)
    (txs : list Transaction) (receipts : list Receipt)
    : Block * option error * Store :=
  let m1 := accumulateRewards (Config chain) m in
  let m2 := mkStore (stateDB m1)
                    (set_Root (hdr m1) (IntermediateRoot true (stateDB m1))) in
  (NewBlock (hdr m2) txs receipts, None, m2).

End Finalisation.

(** ** Batch verification: the goroutines of [VerifyHeaders] *)

Local Close Scope Z_scope.

(** Where a worker goroutine stands in its loop. *)
Inductive worker : Type :=
  | WIdle                 (* blocked in [range inputs] *)
  | WBusy (index : nat)   (* received [index], about to run verifyHeaderWorker *)
  | WSend (index : nat)   (* stored errors[index], at [done <- index] *)
  | WExit.                (* left the loop after [inputs] was closed *)

(** Where the sequencing goroutine stands. *)
Inductive sequencer : Type :=
  | SSelect               (* at the [select] *)
  | SDrain                (* in the loop over [checked[out]] *)
  | SReturned.            (* returned; the deferred [close(inputs)] has run *)

(** The goroutines, the variables they share and the channels.  [done] is the
    content of the buffered channel, oldest first; [errorsOut] is everything
    sent on the results channel so far; [abort] says whether the caller has
    raised the abort signal. *)
Record state : Type := mkState {
  workers : list worker;
  seqr : sequencer;
  inp : nat;
  out : nat;
  inputs_nil : bool;
  checked : list bool;
  errors : list (option error);
  done : list nat;
  errorsOut : list (option error);
  abort : bool
}.

(** One atomic action of one goroutine (or of the caller). *)
Inductive label : Type :=
  | Dispatch (w : nat)            (* [inputs <- in], received by worker [w] *)
  | Compute (w : nat) (now : Z)   (* worker [w] runs verifyHeaderWorker at time [now] *)
  | Report (w : nat)              (* worker [w]: [done <- index] *)
  | Collect                       (* sequencer: [index := <-done] *)
  | Emit                          (* sequencer: [errorsOut <- errors[out]] *)
  | Resume                        (* sequencer: [checked[out]] is false, back to select *)
  | Abort                         (* sequencer: [<-abort], return *)
  | RaiseAbort                    (* caller raises the abort signal *)
  | Leave (w : nat).              (* worker [w] sees [inputs] closed *)

(** [1] when the worker holds index [i]. *)
Definition holds (i : nat) (w : worker) : nat :=
  match w with
  | WBusy j | WSend j => if j =? i then 1 else 0
  | WIdle | WExit => 0
  end.

Definition is_index (i j : nat) : nat := if j =? i then 1 else 0.

(** How many places hold index [i]: workers, the [done] channel, and the
    [checked] slot. *)
Definition tokens (s : state) (i : nat) : nat :=
  sum_list_with (holds i) (workers s) + sum_list_with (is_index i) (done s)
  + (match checked s !! i with Some true => 1 | _ => 0 end).

Section Batch.

Variable Hash : Header -> common_Hash.
Variable params : ProtocolParams.
Variable ethash : dops.
Variable chain : ChainReader.
Variable headers : list Header.
Variable seals : list bool.
(** [runtime.GOMAXPROCS(0)]. *)
Variable maxprocs : nat.
(** The wall clock reads between [tmin] and [tmax] while the batch runs. *)
Variables tmin tmax : Z.

(** The number of worker goroutines. *)
Definition nworkers : nat :=
  if length headers <? maxprocs then length headers else maxprocs.

(** The state [VerifyHeaders] leaves when it returns its two channels: no
    goroutine at all for an empty batch, otherwise the workers and the
    sequencer at the start of their loops. *)
Definition VerifyHeaders : state :=
  if length headers =? 0 then
    mkState [] SReturned 0 0 true [] [] [] [] false
  else
    mkState (replicate nworkers WIdle) SSelect 0 0 false
            (replicate (length headers) false)
            (replicate (length headers) None) [] [] false.

(** [exec l s] is the state after action [l], or [None] when the action is
    not possible in [s]: the goroutine stands elsewhere, the channel
    operation would block ([inputs] is unbuffered, [done] holds at most
    [nworkers] indices), the clock reading is out of range, or the Go code
    panics on an index out of range.  The results channel has room for one
    result per header, so sending on it never blocks. *)
Definition exec (l : label) (s : state) : option state :=
  match l with
  | Dispatch w =>
    match seqr s, inputs_nil s, workers s !! w with
    | SSelect, false, Some WIdle =>
      Some (mkState (<[w := WBusy (inp s)]> (workers s)) SSelect (S (inp s)) (out s)
                    (S (inp s) =? length headers) (checked s) (errors s) (done s)
                    (errorsOut s) (abort s))
    | _, _, _ => None
    end
  | Compute w now =>
    match workers s !! w with
    | Some (WBusy index) =>
      if ((tmin <=? now)%Z && (now <=? tmax)%Z)%bool then
        r ← verifyHeaderWorker Hash params ethash now chain headers seals index;
        Some (mkState (<[w := WSend index]> (workers s)) (seqr s) (inp s) (out s)
                      (inputs_nil s) (checked s) (<[index := r]> (errors s)) (done s)
                      (errorsOut s) (abort s))
      else None
    | _ => None
    end
  | Report w =>
    match workers s !! w with
    | Some (WSend index) =>
      if length (done s) <? nworkers then
        Some (mkState (<[w := WIdle]> (workers s)) (seqr s) (inp s) (out s)
                      (inputs_nil s) (checked s) (errors s) (done s ++ [index])
                      (errorsOut s) (abort s))
      else None
    | _ => None
    end
  | Collect =>
    match seqr s, done s with
    | SSelect, index :: rest =>
      match checked s !! index with
      | Some _ =>
        Some (mkState (workers s) SDrain (inp s) (out s) (inputs_nil s)
                      (<[index := true]> (checked s)) (errors s) rest
                      (errorsOut s) (abort s))
      | None => None
      end
    | _, _ => None
    end
  | Emit =>
    match seqr s, checked s !! out s, errors s !! out s with
    | SDrain, Some true, Some e =>
      if out s =? length headers - 1 then
        Some (mkState (workers s) SReturned (inp s) (out s) (inputs_nil s)
                      (checked s) (errors s) (done s) (errorsOut s ++ [e]) (abort s))
      else
        Some (mkState (workers s) SDrain (inp s) (S (out s)) (inputs_nil s)
                      (checked s) (errors s) (done s) (errorsOut s ++ [e]) (abort s))
    | _, _, _ => None
    end
  | Resume =>
    match seqr s, checked s !! out s with
    | SDrain, Some false =>
      Some (mkState (workers s) SSelect (inp s) (out s) (inputs_nil s)
                    (checked s) (errors s) (done s) (errorsOut s) (abort s))
    | _, _ => None
    end
  | Abort =>
    match seqr s, abort s with
    | SSelect, true =>
      Some (mkState (workers s) SReturned (inp s) (out s) (inputs_nil s)
                    (checked s) (errors s) (done s) (errorsOut s) (abort s))
    | _, _ => None
    end
  | RaiseAbort =>
    if abort s then None
    else
      Some (mkState (workers s) (seqr s) (inp s) (out s) (inputs_nil s)
                    (checked s) (errors s) (done s) (errorsOut s) true)
  | Leave w =>
    match seqr s, workers s !! w with
    | SReturned, Some WIdle =>
      Some (mkState (<[w := WExit]> (workers s)) SReturned (inp s) (out s)
                    (inputs_nil s) (checked s) (errors s) (done s)
                    (errorsOut s) (abort s))
    | _, _ => None
    end
  end.

(** A schedule: the actions in the order they happen. *)
Fixpoint run (ls : list label) (s : state) : option state :=
  match ls with
  | [] => Some s
  | l :: ls => s' ← exec l s; run ls s'
  end.

Definition reachable (s : state) : Prop :=
  exists ls, run ls VerifyHeaders = Some s.

(** The outcome a worker may store for position [k]. *)
Definition outcome_of (k : nat) (e : option error) : Prop :=
  exists now, (tmin <= now <= tmax)%Z /\
    verifyHeaderWorker Hash params ethash now chain headers seals k = Some e.

(** No action of a goroutine is possible (the caller may still raise the
    abort signal). *)
Definition stuck (s : state) : Prop :=
  forall l s', exec l s = Some s' -> l = RaiseAbort.

Definition worker_weight (w : worker) : nat :=
  match w with
  | WExit => 0
  | WIdle => 1
  | WSend _ => 4
  | WBusy _ => 5
  end.

Definition sequencer_weight (q : sequencer) : nat :=
  match q with
  | SReturned => 0
  | SSelect => 1
  | SDrain => 2
  end.

(** A bound on the number of actions still possible. *)
Definition potential (s : state) : nat :=
  5 * (length headers - inp s) + sum_list_with worker_weight (workers s)
  + 2 * length (done s) + (length headers - out s)
  + sequencer_weight (seqr s) + (if abort s then 0 else 1).

(** What holds of every state the goroutines can reach. *)
Record inv (s : state) : Prop := mkInv {
  inv_checked_len : length (checked s) = length headers;
  inv_errors_len : length (errors s) = length headers;
  inv_workers_len : length (workers s) = nworkers;
  inv_checked : forall k, checked s !! k = Some true ->
    exists e, errors s !! k = Some e /\ outcome_of k e;
  inv_send : forall w i, workers s !! w = Some (WSend i) ->
    exists e, errors s !! i = Some e /\ outcome_of i e;
  inv_done : forall i, i ∈ done s ->
    exists e, errors s !! i = Some e /\ outcome_of i e;
  inv_emitted : forall k, k < length (errorsOut s) -> checked s !! k = Some true;
  inv_prefix : errorsOut s = take (length (errorsOut s)) (errors s);
  inv_seq :
    match seqr s with
    | SReturned => length (errorsOut s) <= length headers /\
                   (abort s = true \/ length (errorsOut s) = length headers)
    | SSelect => length (errorsOut s) = out s /\ out s < length headers /\
                 checked s !! out s = Some false
    | SDrain => length (errorsOut s) = out s /\ out s < length headers
    end;
  inv_inputs : inputs_nil s = (inp s =? length headers) /\ inp s <= length headers;
  inv_tokens : forall i, tokens s i = if i <? inp s then 1 else 0;
  inv_exit : seqr s <> SReturned -> forall w, workers s !! w <> Some WExit
}.

End Batch.

(** ** The specification's vocabulary *)

Local Open Scope Z_scope.

(** The error kinds of the specification's error-handling section. *)
Inductive ErrorKind : Type :=
  | UnknownAncestor
  | HeaderRuleViolation
  | SealInvalid.

Definition kindOf (e : error) : ErrorKind :=
  match e with
  | ErrUnknownAncestor => UnknownAncestor
  | errInvalidPoW => SealInvalid
  | _ => HeaderRuleViolation
  end.

(** A rule check: the error it reports when the rule is violated. *)
Definition check (violated : bool) (e : error) : option error :=
  if violated then Some e else None.

(** The error of the first check that fails. *)
Fixpoint first_failure (checks : list (option error)) : option error :=
  match checks with
  | [] => None
  | Some e :: _ => Some e
  | None :: rest => first_failure rest
  end.

(** The rule checks in the specification's words and in the order it lists
    them, each with the condition under which the rule is violated: the
    extra data is longer than the size bound; the timestamp is more than the
    allowed 15 seconds ahead of the clock; the timestamp is not strictly
    greater than the parent's; the gas limit is above the ceiling 2^63-1;
    the gas used is above the gas limit; the gas limit is away from the
    parent's by the tolerance (the parent's gas limit over the divisor) or
    more, or below the protocol minimum; the block number is not the parent's
    plus one; and last, only when the seal check is requested, the engine
    rejects the seal, which this engine does for the one block number it is
    configured to fail.  The delta is the distance between the two gas
    limits as numbers, and nothing here is taken from [verifyHeader],
    [gasLimitDiff] or [VerifySeal]. *)
Definition ruleChecks (params : ProtocolParams) (ethash : dops) (now : Z)
    (header parent : Header) (seal : bool) : list (option error) :=
  let tolerance := GasLimit parent / GasLimitBoundDivisor params in
  [ check (MaximumExtraDataSize params <? Z.of_nat (length (Extra header)))
          (errExtraTooLong (Z.of_nat (length (Extra header))) (MaximumExtraDataSize params));
    check (now + allowedFutureBlockTime <? Time header) ErrFutureBlock;
    check (negb (Time parent <? Time header)) errZeroBlockTime;
    check (2 ^ 63 - 1 <? GasLimit header) (errGasLimitCap (GasLimit header) (2 ^ 63 - 1));
    check (GasLimit header <? GasUsed header) (errGasUsed (GasUsed header) (GasLimit header));
    check ((tolerance <=? Z.abs (GasLimit header - GasLimit parent))
           || (GasLimit header <? MinGasLimit params))
          (errGasLimitBound (GasLimit header) (GasLimit parent) tolerance);
    check (negb (Number header =? Number parent + 1)) ErrInvalidNumber;
    check (seal && (Uint64 (Number header) =? fakeFail ethash)) errInvalidPoW ].

(** ** Example data *)

(** A stand-in for [Header.Hash()] in the examples: headers of the examples
    are told apart by their number. *)
Definition exampleHash (h : Header) : common_Hash := 1000 + Number h.

(** A chain reader over a list of stored headers, looked up by hash and
    number. *)
Definition chainOf (hs : list Header) : ChainReader :=
  mkChain (mkConfig (Some 100))
    (fun hash number =>
       List.find (fun h => (exampleHash h =? hash) && (Uint64 (Number h) =? number)) hs).

(** An engine whose [fakeFail] number lies outside the examples. *)
Definition exampleEngine : dops := mkDops (2 ^ 64 - 1) 0.

(** [exampleHeader parentHash number gasLimit gasUsed time]. *)
Definition exampleHeader (parentHash number gasLimit gasUsed time : Z) : Header :=
  mkHeader parentHash 7 0 0 number gasLimit gasUsed time [] 0 0.

Definition genesis : Header := exampleHeader 0 0 1000000 0 1000.
Definition block1 : Header := exampleHeader 1000 1 1000000 0 1010.
Definition block2 : Header := exampleHeader 1001 2 1000000 21000 1020.
Definition block3 : Header := exampleHeader 1002 3 1000000 21000 1030.
(** Gas limit raised by far more than a 1024th of the parent's. *)
Definition block2_gas : Header := exampleHeader 1001 2 2000000 21000 1020.
(** Timestamp not above the parent's. *)
Definition block3_late : Header := exampleHeader 1002 3 1000000 21000 1020.
(** Gas limit within the delta bound of [block2_gas]. *)
Definition block3_on_gas : Header := exampleHeader 1002 3 2000000 21000 1030.
(** Like [block1], with 33 bytes of extra data. *)
Definition block1_extra : Header :=
  mkHeader 1000 7 0 0 1 1000000 21000 1010 (replicate 33 Byte.x00) 0 0.
(** Like [block1], with the largest gas limit a [uint64] holds; as a header
    it fails the ceiling check, as the predecessor in a batch it is the parent
    the next header is verified against all the same. *)
Definition block1_wide : Header := exampleHeader 1000 1 (2 ^ 64 - 1) 0 1010.
(** A successor of [block1_wide] at the minimum gas limit. *)
Definition block2_floor : Header := exampleHeader 1001 2 5000 0 1020.

(** The goroutines of the examples: example hash, default parameters, the
    chain holding [genesis], and a clock between 2000 and 2001. *)
Definition exampleExec (headers : list Header) (seals : list bool) (maxprocs : nat)
    : label -> state -> option state :=
  exec exampleHash defaultParams exampleEngine (chainOf [genesis]) headers seals
       maxprocs 2000 2001.

Definition exampleRun (headers : list Header) (seals : list bool) (maxprocs : nat)
    : list label -> state -> option state :=
  run exampleHash defaultParams exampleEngine (chainOf [genesis]) headers seals
      maxprocs 2000 2001.

(** Two workers; the worker of the second header reports first. *)
Definition scheduleSecondFirst : list label :=
  [Dispatch 0; Dispatch 1; Compute 1 2000; Report 1; Collect; Resume;
   Compute 0 2001; Report 0; Collect; Emit; Emit].

(** Three headers on two workers; the worker of the third header reports
    before the worker of the second. *)
Definition scheduleThirdFirst : list label :=
  [Dispatch 0; Dispatch 1; Compute 0 2000; Report 0; Dispatch 0; Compute 0 2000;
   Report 0; Collect; Emit; Resume; Collect; Resume; Compute 1 2001; Report 1;
   Collect; Emit; Emit].

(** The caller raises the abort signal while the only header is in work; the
    sequencer's select takes the worker's report all the same. *)
Definition scheduleRaiseThenEmit : list label :=
  [Compute 0 2000; Report 0; Collect; Emit].

(** One worker, two headers: the first report sits in the [done] channel
    when the second header is dispatched, and the sequencer takes the abort
    signal before it collects. *)
Definition scheduleAbortFull : list label :=
  [Dispatch 0; Compute 0 2000; Report 0; Dispatch 0; Compute 0 2000;
   RaiseAbort; Abort].

(** [k] rounds in which worker 0 receives the next index, verifies it at time
    [now] and reports it, while the sequencer receives nothing from [done]. *)
Fixpoint scheduleFill (k : nat) (now : Z) : list label :=
  match k with
  | O => []
  | S k => scheduleFill k now ++ [Dispatch 0; Compute 0 now; Report 0]
  end.

(** After [k] such rounds worker 0 receives and verifies one more index, the
    caller raises the abort signal and the sequencer takes it.  With [k] the
    capacity of [done] this leaves the worker at [done <- k] with the
    channel full; [scheduleAbortFull] is the case [k = 1]. *)
Definition scheduleAbortBlocked (k : nat) (now : Z) : list label :=
  scheduleFill k now ++ [Dispatch 0; Compute 0 now; RaiseAbort; Abort].

(** The state [scheduleAbortFull] leads to: the sequencer has returned, the
    [done] channel of capacity 1 holds index 0, and the worker is at
    [done <- 1]. *)
Definition stateAbortFull : state :=
  mkState [WSend 1] SReturned 2 0 true [false; false] [None; None] [0%nat] [] true.

(** ** The remaining engine entry points *)

(** [Author]: the header's coinbase, and no error. *)
Definition Author (header : Header) : common_Address * option error :=
  (Coinbase header, None).

(** [Prepare]: fails exactly when the chain does not hold the parent; the
    header is left as it is. *)
Definition Prepare (chain : ChainReader) (header : Header) : option error :=
  match GetHeader chain (ParentHash header) (wrap_u64 (Uint64 (Number header) - 1)) with
  | None => Some ErrUnknownAncestor
  | Some _ => None
  end.

(** The sum of all balances of a state. *)
Definition totalBalance (s : gmap Z Account) : Z :=
  map_fold (fun _ a acc => Balance a + acc) 0 s.

(** The index a worker has received and not yet reported. *)
Definition held (x : worker) : option nat :=
  match x with
  | WBusy i | WSend i => Some i
  | WIdle | WExit => None
  end.


(** ** Metered message streams (les/metrics.go) *)

Module metrics.

(** The four meters the package registers. *)
Inductive Meter : Type :=
  | miscInPacketsMeter
  | miscInTrafficMeter
  | miscOutPacketsMeter
  | miscOutTrafficMeter.

#[global] Instance Meter_eq_dec : EqDecision Meter.
Proof. solve_decision. Defined.

(** [p2p.Msg]: the message code, the payload size (a [uint32]) and the
    payload. *)
Record Msg : Type := mkMsg {
  Code : Z;
  Size : Z;
  Payload : list Byte.byte
}.

(** [meteredMsgReadWriter]: the wrapper's own field; the wrapped stream is
    the stream of the world below. *)
Record meteredMsgReadWriter : Type := mkMetered {
  version : Z
}.

(** A [p2p.MsgReadWriter] value as [newMeteredMsgWriter] returns it: the
    stream itself, or the metering wrapper around it. *)
Inductive MsgReadWriter : Type :=
  | Plain
  | Metered (rw : meteredMsgReadWriter).

(** One call on a message stream, and what it returned. *)
Inductive call : Type :=
  | CallInit (version : Z)
  | CallRead
  | CallWrite (msg : Msg).

Section Metered.

(** The wrapped [p2p.MsgReadWriter]: its state and its two methods. *)
Variable Stream : Type.
Variable Err : Type.
Variable innerReadMsg : Stream -> Msg * option Err * Stream.
Variable innerWriteMsg : Msg -> Stream -> option Err * Stream.

Inductive result : Type :=
  | DidInit
  | DidRead (msg : Msg) (err : option Err)
  | DidWrite (err : option Err).

(** The wrapped stream and the calls of [Mark] made so far, each with its
    meter and its argument. *)
Record World : Type := mkWorld {
  stream : Stream;
  marks : list (Meter * Z)
}.

(** [meter.Mark(n)]. *)
Definition Mark (m : Meter) (n : Z) (w : World) : World :=
  mkWorld (stream w) (marks w ++ [(m, n)]).

(** [newMeteredMsgWriter]; [enabled] is [metrics.Enabled]. *)
Definition newMeteredMsgWriter (enabled : bool) : MsgReadWriter :=
  if negb enabled then Plain else Metered (mkMetered 0).

(** [Init]. *)
Definition Init (rw : meteredMsgReadWriter) (v : Z) : meteredMsgReadWriter :=
  mkMetered v.

(** [ReadMsg] of the wrapper. *)
Definition ReadMsg (rw : meteredMsgReadWriter) (w : World)
    : Msg * option Err * World :=
  let '(msg, err, s) := innerReadMsg (stream w) in
  let w := mkWorld s (marks w) in
  match err with
  | Some e => (msg, Some e, w)
  | None =>
    let w := Mark miscInPacketsMeter 1 w in
    let w := Mark miscInTrafficMeter (Size msg) w in
    (msg, None, w)
  end.

(** [WriteMsg] of the wrapper. *)
Definition WriteMsg (rw : meteredMsgReadWriter) (msg : Msg) (w : World)
    : option Err * World :=
  let w := Mark miscOutPacketsMeter 1 w in
  let w := Mark miscOutTrafficMeter (Size msg) w in
  let '(err, s) := innerWriteMsg msg (stream w) in
  (err, mkWorld s (marks w)).

(** A call through the interface value: the wrapper's method, or the
    stream's own.  [Init] exists on the wrapper only. *)
Definition perform (c : call) (rw : MsgReadWriter) (w : World)
    : result * MsgReadWriter * World :=
  match c, rw with
  | CallInit v, Metered m => (DidInit, Metered (Init m v), w)
  | CallInit v, Plain => (DidInit, Plain, w)
  | CallRead, Metered m =>
    let '(msg, err, w) := ReadMsg m w in (DidRead msg err, rw, w)
  | CallRead, Plain =>
    let '(msg, err, s) := innerReadMsg (stream w) in
    (DidRead msg err, rw, mkWorld s (marks w))
  | CallWrite msg, Metered m =>
    let '(err, w) := WriteMsg m msg w in (DidWrite err, rw, w)
  | CallWrite msg, Plain =>
    let '(err, s) := innerWriteMsg msg (stream w) in
    (DidWrite err, rw, mkWorld s (marks w))
  end.

Fixpoint performAll (cs : list call) (rw : MsgReadWriter) (w : World)
    : list result * MsgReadWriter * World :=
  match cs with
  | [] => ([], rw, w)
  | c :: cs =>
    let '(r, rw, w) := perform c rw w in
    let '(rs, rw, w) := performAll cs rw w in
    (r :: rs, rw, w)
  end.

(** The same calls made on the wrapped stream directly. *)
Fixpoint direct (cs : list call) (s : Stream) : list result * Stream :=
  match cs with
  | [] => ([], s)
  | CallInit _ :: cs =>
    let '(rs, s) := direct cs s in (DidInit :: rs, s)
  | CallRead :: cs =>
    let '(msg, err, s) := innerReadMsg s in
    let '(rs, s) := direct cs s in (DidRead msg err :: rs, s)
  | CallWrite msg :: cs =>
    let '(err, s) := innerWriteMsg msg s in
    let '(rs, s) := direct cs s in (DidWrite err :: rs, s)
  end.

(** The sum of the arguments of the [Mark] calls on meter [m]. *)
Fixpoint marked (m : Meter) (log : list (Meter * Z)) : Z :=
  match log with
  | [] => 0
  | (m', n) :: log => (if decide (m' = m) then n else 0) + marked m log
  end.

(** Packets and bytes of the reads that returned no error. *)
Fixpoint readsOk (rs : list result) : Z * Z :=
  match rs with
  | [] => (0, 0)
  | DidRead msg None :: rs => let '(p, t) := readsOk rs in (1 + p, Size msg + t)
  | _ :: rs => readsOk rs
  end.

(** Packets and bytes of all writes that were attempted. *)
Fixpoint writesTried (cs : list call) : Z * Z :=
  match cs with
  | [] => (0, 0)
  | CallWrite msg :: cs => let '(p, t) := writesTried cs in (1 + p, Size msg + t)
  | _ :: cs => writesTried cs
  end.

End Metered.

End metrics.

(** ** The full node service (goolabackend/backend.go)

    Calls of package [log] are left out; locks are left out (one call at a
    time). *)

Module goolabackend.

(** The errors the service builds with [fmt.Errorf]; [AccountErr] is the
    error type of the account manager. *)
Inductive error (AccountErr : Type) : Type :=
  | errGoolaseUnspecified                       (* "goolase must be explicitly specified" *)
  | errEtherbaseMissing (cause : error AccountErr) (* "etherbase missing: %v" *)
  | errSignerMissing (cause : option AccountErr)   (* "signer missing: %v" *)
  | errInvalidPeerConfig (light total : Z).
      (* "invalid peer config: light peer count (%d) >= total peer count (%d)" *)

Arguments errGoolaseUnspecified {AccountErr}.
Arguments errEtherbaseMissing {AccountErr} cause.
Arguments errSignerMissing {AccountErr} cause.
Arguments errInvalidPeerConfig {AccountErr} light total.

(** [FullGoola]: the fields the modelled methods read or write, and what
    they have done to the miner, the clique engine, the protocol manager and
    the light server.  [wallets] is what [AccountManager().Wallets()]
    returns, each wallet by the addresses of its [Accounts()]. *)
Record FullGoola : Type := mkFullGoola {
  etherbase : common_Address;
  networkId : Z;
  LightServ : Z;                          (* config.LightServ, an int *)
  LightPeers : Z;                         (* config.LightPeers, an int *)
  engineIsClique : bool;                  (* engine.( *clique.Clique) succeeds *)
  hasLesServer : bool;                    (* lesServer != nil *)
  wallets : list (list common_Address);
  minerEtherbase : common_Address;        (* set by miner.SetEtherbase *)
  cliqueSigner : option common_Address;   (* set by clique.Authorize *)
  acceptTxs : Z;                          (* protocolManager.acceptTxs *)
  mining : option common_Address;         (* go miner.Start(eb) *)
  bloomHandlers : bool;                   (* startBloomHandlers ran *)
  netRPCService : option Z;               (* NewPublicNetAPI(srvr, NetVersion()) *)
  pmMaxPeers : option Z;                  (* protocolManager.Start(maxPeers) *)
  lesStarted : bool                       (* lesServer.Start(srvr) *)
}.

Definition set_etherbase (g : FullGoola) (a : common_Address) : FullGoola :=
  mkFullGoola a (networkId g) (LightServ g) (LightPeers g) (engineIsClique g)
    (hasLesServer g) (wallets g) (minerEtherbase g) (cliqueSigner g) (acceptTxs g)
    (mining g) (bloomHandlers g) (netRPCService g) (pmMaxPeers g) (lesStarted g).

Definition set_wallets (g : FullGoola) (ws : list (list common_Address)) : FullGoola :=
  mkFullGoola (etherbase g) (networkId g) (LightServ g) (LightPeers g) (engineIsClique g)
    (hasLesServer g) ws (minerEtherbase g) (cliqueSigner g) (acceptTxs g)
    (mining g) (bloomHandlers g) (netRPCService g) (pmMaxPeers g) (lesStarted g).

Definition set_minerEtherbase (g : FullGoola) (a : common_Address) : FullGoola :=
  mkFullGoola (etherbase g) (networkId g) (LightServ g) (LightPeers g) (engineIsClique g)
    (hasLesServer g) (wallets g) a (cliqueSigner g) (acceptTxs g)
    (mining g) (bloomHandlers g) (netRPCService g) (pmMaxPeers g) (lesStarted g).

Definition set_cliqueSigner (g : FullGoola) (a : option common_Address) : FullGoola :=
  mkFullGoola (etherbase g) (networkId g) (LightServ g) (LightPeers g) (engineIsClique g)
    (hasLesServer g) (wallets g) (minerEtherbase g) a (acceptTxs g)
    (mining g) (bloomHandlers g) (netRPCService g) (pmMaxPeers g) (lesStarted g).

Definition set_acceptTxs (g : FullGoola) (v : Z) : FullGoola :=
  mkFullGoola (etherbase g) (networkId g) (LightServ g) (LightPeers g) (engineIsClique g)
    (hasLesServer g) (wallets g) (minerEtherbase g) (cliqueSigner g) v
    (mining g) (bloomHandlers g) (netRPCService g) (pmMaxPeers g) (lesStarted g).

Definition set_mining (g : FullGoola) (a : option common_Address) : FullGoola :=
  mkFullGoola (etherbase g) (networkId g) (LightServ g) (LightPeers g) (engineIsClique g)
    (hasLesServer g) (wallets g) (minerEtherbase g) (cliqueSigner g) (acceptTxs g)
    a (bloomHandlers g) (netRPCService g) (pmMaxPeers g) (lesStarted g).

Definition set_started (g : FullGoola) (bloom : bool) (net : option Z)
    (pm : option Z) (les : bool) : FullGoola :=
  mkFullGoola (etherbase g) (networkId g) (LightServ g) (LightPeers g) (engineIsClique g)
    (hasLesServer g) (wallets g) (minerEtherbase g) (cliqueSigner g) (acceptTxs g)
    (mining g) bloom net pm les.

(** [makeExtraData]; [defaultExtra] is the RLP encoding of version, client
    name, Go version and operating system that replaces an empty input. *)
Definition makeExtraData (params : ProtocolParams) (defaultExtra : list Byte.byte)
    (extra : list Byte.byte) : list Byte.byte :=
  let extra := if (length extra =? 0)%nat then defaultExtra else extra in
  if Z.of_nat (length extra) >? MaximumExtraDataSize params then [] else extra.

(** [NetVersion]. *)
Definition NetVersion (g : FullGoola) : Z := networkId g.

Section Service.

Variable AccountErr : Type.
(** [accountManager.Find(accounts.Account{Address: eb})]: whether a wallet
    was returned, and the error. *)
Variable Find : list (list common_Address) -> common_Address -> bool * option AccountErr.

(** [Goolase]: the configured address, else the first account of the first
    wallet, which it then stores. *)
Definition Goolase (g : FullGoola)
    : common_Address * option (error AccountErr) * FullGoola :=
  let goolase := etherbase g in
  if negb (goolase =? 0) then (goolase, None, g)
  else
    match wallets g with
    | (goolase :: _) :: _ => (goolase, None, set_etherbase g goolase)
    | _ => (0, Some errGoolaseUnspecified, g)
    end.

(** [SetEtherbase]. *)
Definition SetEtherbase (g : FullGoola) (goolase : common_Address) : FullGoola :=
  set_minerEtherbase (set_etherbase g goolase) goolase.

(** [StartMining]. *)
Definition StartMining (g : FullGoola) (local : bool)
    : option (error AccountErr) * FullGoola :=
  let '(eb, err, g) := Goolase g in
  match err with
  | Some e => (Some (errEtherbaseMissing e), g)
  | None =>
    let authorized :=
      if engineIsClique g then
        let '(found, err) := Find (wallets g) eb in
        if negb found || bool_decide (err <> None) then inr (errSignerMissing err)
        else inl (set_cliqueSigner g (Some eb))
      else inl g in
    match authorized with
    | inr e => (Some e, g)
    | inl g =>
      let g := if local then set_acceptTxs g 1 else g in
      (None, set_mining g (Some eb))
    end
  end.

(** [Start]; [MaxPeers] is [srvr.MaxPeers], an [int]. *)
Definition Start (g : FullGoola) (MaxPeers : Z) : option (error AccountErr) * FullGoola :=
  let g := set_started g true (Some (NetVersion g)) (pmMaxPeers g) (lesStarted g) in
  let finish (maxPeers : Z) :=
    (None, set_started g (bloomHandlers g) (netRPCService g) (Some maxPeers)
                       (if hasLesServer g then true else lesStarted g)) in
  if LightServ g >? 0 then
    if LightPeers g >=? MaxPeers then
      (Some (errInvalidPeerConfig (LightPeers g) MaxPeers), g)
    else finish (wrap_i64 (MaxPeers - LightPeers g))
  else finish MaxPeers.

End Service.

End goolabackend.

(** ** The API backends (goolabackend/api_backend.go, les/api_backend.go) *)

Module apibackend.

Section FullNode.

Variables Block StateDB Transaction Err : Type.
(** [Block.Header()]. *)
Variable BlockHeader : Block -> Header.
(** [rpc.PendingBlockNumber] and [rpc.LatestBlockNumber]. *)
Variables PendingBlockNumber LatestBlockNumber : Z.

(** What the backend asks of the miner and the block chain. *)
Record Node : Type := mkNode {
  PendingBlock : Block;                          (* miner.PendingBlock() *)
  Pending : Block * StateDB;                     (* miner.Pending() *)
  CurrentBlock : Block;                          (* blockchain.CurrentBlock() *)
  GetHeaderByNumber : Z -> option Header;        (* blockchain.GetHeaderByNumber *)
  GetBlockByNumber : Z -> option Block;          (* blockchain.GetBlockByNumber *)
  StateAt : common_Hash -> option StateDB * option Err  (* blockchain.StateAt *)
}.

(** [HeaderByNumber]; [blockNr] is an [int64]. *)
Definition HeaderByNumber (b : Node) (blockNr : Z) : option Header * option Err :=
  if blockNr =? PendingBlockNumber then
    (Some (BlockHeader (PendingBlock b)), None)
  else if blockNr =? LatestBlockNumber then
    (Some (BlockHeader (CurrentBlock b)), None)
  else (GetHeaderByNumber b (wrap_u64 blockNr), None).

(** [BlockByNumber]. *)
Definition BlockByNumber (b : Node) (blockNr : Z) : option Block * option Err :=
  if blockNr =? PendingBlockNumber then (Some (PendingBlock b), None)
  else if blockNr =? LatestBlockNumber then (Some (CurrentBlock b), None)
  else (GetBlockByNumber b (wrap_u64 blockNr), None).

(** [StateAndHeaderByNumber]. *)
Definition StateAndHeaderByNumber (b : Node) (blockNr : Z)
    : option StateDB * option Header * option Err :=
  if blockNr =? PendingBlockNumber then
    let '(block, state) := Pending b in
    (Some state, Some (BlockHeader block), None)
  else
    let '(header, err) := HeaderByNumber b blockNr in
    match header, err with
    | Some h, None =>
      let '(stateDb, err) := StateAt b (Root h) in
      (stateDb, Some h, err)
    | _, _ => (None, None, err)
    end.

(** [GetPoolTransactions]: [pending] is what [txPool.Pending()] returned,
    [visited] the entries of the map in the order the [range] loop visits
    them. *)
Definition GetPoolTransactions (pending : gmap Z (list Transaction) * option Err)
    (visited : list (Z * list Transaction)) : list Transaction * option Err :=
  match snd pending with
  | Some err => ([], Some err)
  | None => (concat (snd <$> visited), None)
  end.

End FullNode.

End apibackend.

Module lesapi.

Section LightNode.

Variables Block StateDB Err : Type.
(** [Header.Hash()]. *)
Variable Hash : Header -> common_Hash.
Variables PendingBlockNumber LatestBlockNumber : Z.

(** What the backend asks of the light chain and the on-demand retrieval. *)
Record Node : Type := mkNode {
  CurrentHeader : option Header;                              (* blockchain.CurrentHeader() *)
  GetHeaderByNumberOdr : Z -> option Header * option Err;     (* blockchain.GetHeaderByNumberOdr *)
  GetBlockByHash : common_Hash -> option Block * option Err;  (* blockchain.GetBlockByHash *)
  NewState : Header -> StateDB                                (* light.NewState *)
}.

(** [HeaderByNumber]. *)
Definition HeaderByNumber (b : Node) (blockNr : Z) : option Header * option Err :=
  if (blockNr =? LatestBlockNumber) || (blockNr =? PendingBlockNumber) then
    (CurrentHeader b, None)
  else GetHeaderByNumberOdr b (wrap_u64 blockNr).

(** [GetBlock]. *)
Definition GetBlock (b : Node) (blockHash : common_Hash) : option Block * option Err :=
  GetBlockByHash b blockHash.

(** [BlockByNumber]. *)
Definition BlockByNumber (b : Node) (blockNr : Z) : option Block * option Err :=
  let '(header, err) := HeaderByNumber b blockNr in
  match header, err with
  | Some h, None => GetBlock b (Hash h)
  | _, _ => (None, err)
  end.

(** [StateAndHeaderByNumber]. *)
Definition StateAndHeaderByNumber (b : Node) (blockNr : Z)
    : option StateDB * option Header * option Err :=
  let '(header, err) := HeaderByNumber b blockNr in
  match header, err with
  | Some h, None => (Some (NewState b h), Some h, None)
  | _, _ => (None, None, err)
  end.

End LightNode.

End lesapi.

(** * Properties *)

(** ** Machine integers *)

Lemma wrap_i64_small (z : Z) : - 2 ^ 63 <= z < 2 ^ 63 -> wrap_i64 z = z.
Proof.
  intros Hz. unfold wrap_i64.
  rewrite Z.mod_small by lia. lia.
Qed.

Lemma wrap_u64_small (z : Z) : 0 <= z < 2 ^ 64 -> wrap_u64 z = z.
Proof. intros Hz. unfold wrap_u64. now rewrite Z.mod_small. Qed.

(** For gas limits that fit an [int64] the difference the source computes is
    the absolute difference. *)
Lemma gasLimitDiff_abs (header parent : Header) :
  0 <= GasLimit header <= 2 ^ 63 - 1 ->
  0 <= GasLimit parent <= 2 ^ 63 - 1 ->
  gasLimitDiff header parent = Z.abs (GasLimit header - GasLimit parent).
Proof.
  intros Hh Hp. unfold gasLimitDiff.
  rewrite (wrap_i64_small (GasLimit parent)) by lia.
  rewrite (wrap_i64_small (GasLimit header)) by lia.
  rewrite (wrap_i64_small (GasLimit parent - GasLimit header)) by lia.
  destruct (Z.ltb_spec (GasLimit parent - GasLimit header) 0) as [Hneg | Hpos].
  - rewrite wrap_i64_small by lia. rewrite wrap_u64_small by lia. lia.
  - rewrite wrap_u64_small by lia. lia.
Qed.

(** ** verifyHeader *)

Lemma first_failure_None (checks : list (option error)) :
  first_failure checks = None <-> Forall (fun c => c = None) checks.
Proof.
  induction checks as [| [e |] rest IH]; simpl.
  - split; [constructor | reflexivity].
  - split; [discriminate | intros Hall; inversion Hall; discriminate].
  - rewrite IH. split.
    + intros Hall. now constructor.
    + intros Hall. now inversion Hall.
Qed.

(** [first_failure] returns the error of the check at the first failing
    position. *)
Lemma first_failure_Some (checks : list (option error)) (e : error) :
  first_failure checks = Some e <->
  exists k : nat, checks !! k = Some (Some e) /\
    forall j : nat, (j < k)%nat -> checks !! j = Some None.
Proof.
  induction checks as [| [e' |] rest IH]; simpl.
  - split; [discriminate | intros (k & Hk & _); discriminate].
  - split.
    + intros [= ->]. exists 0%nat. split; [reflexivity | lia].
    + intros (k & Hk & Hlt). destruct k as [| k].
      * simpl in Hk. congruence.
      * specialize (Hlt 0%nat ltac:(lia)). discriminate.
  - rewrite IH. split.
    + intros (k & Hk & Hlt). exists (S k). split; [exact Hk |].
      intros [| j] Hj; [reflexivity | apply Hlt; lia].
    + intros (k & Hk & Hlt). destruct k as [| k]; [discriminate |].
      exists k. split; [exact Hk |].
      intros j Hj. apply (Hlt (S j)). lia.
Qed.

(** The result of [verifyHeader] characterised check by check. *)
Lemma verifyHeader_None_iff params ethash now chain header parent seal :
  verifyHeader params ethash now chain header parent seal = None <->
    Z.of_nat (length (Extra header)) <= MaximumExtraDataSize params /\
    Time header <= now + allowedFutureBlockTime /\
    Time parent < Time header /\
    GasLimit header <= 2 ^ 63 - 1 /\
    GasUsed header <= GasLimit header /\
    gasLimitDiff header parent < GasLimit parent / GasLimitBoundDivisor params /\
    MinGasLimit params <= GasLimit header /\
    Number header = Number parent + 1 /\
    (seal = true -> fakeFail ethash <> Uint64 (Number header)).
Proof.
  unfold verifyHeader, VerifySeal.
  change 0x7fffffffffffffff with (2 ^ 63 - 1).
  destruct (Z.gtb_spec (Z.of_nat (length (Extra header))) (MaximumExtraDataSize params));
    [split; [discriminate | lia] |].
  destruct (Z.gtb_spec (Time header) (now + allowedFutureBlockTime));
    [split; [discriminate | lia] |].
  destruct (Z.leb_spec (Time header) (Time parent));
    [split; [discriminate | lia] |].
  cbv zeta.
  destruct (Z.gtb_spec (GasLimit header) (2 ^ 63 - 1));
    [split; [discriminate | lia] |].
  destruct (Z.gtb_spec (GasUsed header) (GasLimit header));
    [split; [discriminate | lia] |].
  destruct (Z.geb_spec (gasLimitDiff header parent)
                       (GasLimit parent / GasLimitBoundDivisor params));
    [split; [discriminate | lia] |].
  destruct (Z.ltb_spec (GasLimit header) (MinGasLimit params));
    [split; [discriminate | lia] |].
  simpl orb.
  destruct (Z.eqb_spec (Number header - Number parent) 1); simpl negb;
    [| split; [discriminate | lia]].
  destruct seal.
  - destruct (Z.eqb_spec (fakeFail ethash) (Uint64 (Number header))).
    + split; [discriminate | intros (_ & _ & _ & _ & _ & _ & _ & _ & Hs); now elim Hs].
    + split; [intros _; repeat split; try lia; intros _; assumption | reflexivity].
  - split; [intros _; repeat split; try lia; discriminate | reflexivity].
Qed.

(** On the gas limits a verified parent and a [uint64] header can have, the
    result of [verifyHeader] is the error of the first of the listed checks
    that fails. *)
Lemma verifyHeader_first_failure params ethash now chain header parent seal :
  0 <= GasLimit header ->
  0 <= GasLimit parent <= 2 ^ 63 - 1 ->
  verifyHeader params ethash now chain header parent seal
  = first_failure (ruleChecks params ethash now header parent seal).
Proof.
  intros Hh Hp. unfold verifyHeader, ruleChecks, check, VerifySeal.
  change 0x7fffffffffffffff with (2 ^ 63 - 1). cbv zeta.
  rewrite !Z.gtb_ltb, Z.geb_leb, Z.leb_antisym.
  destruct (MaximumExtraDataSize params <? Z.of_nat (length (Extra header)));
    [reflexivity |].
  destruct (now + allowedFutureBlockTime <? Time header); [reflexivity |].
  destruct (Time parent <? Time header); [| reflexivity].
  destruct (Z.ltb_spec (2 ^ 63 - 1) (GasLimit header)) as [Hcap | Hcap];
    [reflexivity |].
  destruct (GasLimit header <? GasUsed header); [reflexivity |].
  rewrite gasLimitDiff_abs by lia. simpl first_failure.
  destruct ((GasLimit parent / GasLimitBoundDivisor params
             <=? Z.abs (GasLimit header - GasLimit parent))
            || (GasLimit header <? MinGasLimit params)); [reflexivity |].
  replace (Number header - Number parent =? 1) with (Number header =? Number parent + 1)
    by (destruct (Z.eqb_spec (Number header) (Number parent + 1)),
                 (Z.eqb_spec (Number header - Number parent) 1); lia || reflexivity).
  destruct (Number header =? Number parent + 1); [| reflexivity].
  destruct seal; [| reflexivity].
  rewrite (Z.eqb_sym (fakeFail ethash)).
  destruct (Uint64 (Number header) =? fakeFail ethash); reflexivity.
Qed.

(** C8 (amended): for a header whose gas limit is a [uint64] and a parent
    whose gas limit is at most 2^63-1, [verifyHeader] applies its checks in
    the listed order (extra-data size, timestamp not more than 15 seconds in
    the future, timestamp above the parent's, gas-limit ceiling, gas used
    within the limit, distance of the gas limit from the parent's below the
    tolerance together with the minimum floor, block number the parent's plus
    one, the engine's seal check if requested) and returns the error of the
    first check that fails: the error returned is the one at the first
    failing position of [ruleChecks], the checks written in the
    specification's words, and success means every one of them passed. *)
Theorem verifyHeader_check_order params ethash now chain header parent seal :
  0 <= GasLimit header ->
  0 <= GasLimit parent <= 2 ^ 63 - 1 ->
  let checks := ruleChecks params ethash now header parent seal in
  (forall e : error,
     verifyHeader params ethash now chain header parent seal = Some e <->
     exists k : nat, checks !! k = Some (Some e) /\
       forall j : nat, (j < k)%nat -> checks !! j = Some None) /\
  (verifyHeader params ethash now chain header parent seal = None <->
     Forall (fun c => c = None) checks).
Proof.
  intros Hh Hp checks. subst checks.
  rewrite (verifyHeader_first_failure params ethash now chain header parent seal Hh Hp).
  split.
  - intros e. apply first_failure_Some.
  - apply first_failure_None.
Qed.

(** The gas-limit error of [block2_gas] on [block1] is the sixth check, and
    the five before it pass. *)
Lemma verifyHeader_check_order_witness :
  exists k : nat,
    ruleChecks defaultParams exampleEngine 2000 block2_gas block1 true !! k
      = Some (Some (errGasLimitBound 2000000 1000000 976))
    /\ k = 5%nat
    /\ forall j : nat, (j < k)%nat ->
         ruleChecks defaultParams exampleEngine 2000 block2_gas block1 true !! j = Some None.
Proof.
  destruct (proj1 (proj1 (verifyHeader_check_order defaultParams exampleEngine 2000
                            (chainOf [genesis]) block2_gas block1 true
                            ltac:(vm_compute; discriminate)
                            ltac:(split; vm_compute; discriminate))
                         (errGasLimitBound 2000000 1000000 976)) eq_refl)
    as (k & Hk & Hbefore).
  exists k. split; [exact Hk |]. split; [| exact Hbefore].
  destruct k as [| [| [| [| [| [| [| [| k]]]]]]]]; simpl in Hk; try discriminate.
  reflexivity.
Defined.

(** C8 as stated fails when the parent's gas limit does not fit an [int64]:
    the header's gas limit is away from the parent's by far more than the
    tolerance, so the gas-limit delta check is the first of the listed checks
    that fails, yet [verifyHeader] returns no error, because the difference
    it computes in [int64] is 5001. *)
Lemma verifyHeader_check_order_counterexample :
  verifyHeader defaultParams exampleEngine 2000 (chainOf [genesis])
               block2_floor block1_wide true = None
  /\ Z.abs (GasLimit block2_floor - GasLimit block1_wide)
       >= GasLimit block1_wide / GasLimitBoundDivisor defaultParams
  /\ gasLimitDiff block2_floor block1_wide = 5001
  /\ first_failure (ruleChecks defaultParams exampleEngine 2000 block2_floor block1_wide true)
     = Some (errGasLimitBound 5000 (2 ^ 64 - 1) ((2 ^ 64 - 1) / 1024))
  /\ ~ (verifyHeader defaultParams exampleEngine 2000 (chainOf [genesis])
                     block2_floor block1_wide true = None <->
        Forall (fun c => c = None)
               (ruleChecks defaultParams exampleEngine 2000 block2_floor block1_wide true)).
Proof.
  split; [vm_compute; reflexivity |].
  split; [vm_compute; discriminate |].
  split; [vm_compute; reflexivity |].
  split; [vm_compute; reflexivity |].
  intros [Hall _]. specialize (Hall ltac:(vm_compute; reflexivity)).
  apply first_failure_None in Hall. vm_compute in Hall. discriminate.
Qed.

(** C1 (amended): for a header whose gas limit is a [uint64] and a parent
    whose gas limit is at most 2^63-1, [verifyHeader] with the seal check
    succeeds exactly when the extra data is within its size bound, the
    timestamp is at most 15 seconds ahead of the clock and above the
    parent's, gasUsed <= gasLimit <= 2^63-1 (gasUsed may be 0), the gas limit
    differs from the parent's by less than parent/divisor and is at least
    the minimum, the number is the parent's plus one, and the seal check
    passes (the number is not the engine's failing number). *)
Theorem verifyHeader_succeeds_iff params ethash now chain (H P : Header) :
  0 <= GasLimit H ->
  0 <= GasLimit P <= 2 ^ 63 - 1 ->
  verifyHeader params ethash now chain H P true = None <->
    Z.of_nat (length (Extra H)) <= MaximumExtraDataSize params /\
    Time H <= now + allowedFutureBlockTime /\
    Time H > Time P /\
    GasUsed H <= GasLimit H <= 2 ^ 63 - 1 /\
    Z.abs (GasLimit H - GasLimit P) < GasLimit P / GasLimitBoundDivisor params /\
    MinGasLimit params <= GasLimit H /\
    Number H = Number P + 1 /\
    VerifySeal ethash chain H = None.
Proof.
  intros HH HP. rewrite verifyHeader_None_iff.
  assert (Hseal : VerifySeal ethash chain H = None <->
                  (true = true -> fakeFail ethash <> Uint64 (Number H))).
  { unfold VerifySeal.
    destruct (Z.eqb_spec (fakeFail ethash) (Uint64 (Number H))) as [Heq | Hne].
    - split; [discriminate | intros Hs; now elim Hs].
    - split; [intros _ _; exact Hne | reflexivity]. }
  rewrite Hseal. clear Hseal.
  split.
  - intros (He & Hf & Ht & Hcap & Hused & Hdiff & Hmin & Hnum & Hs).
    rewrite gasLimitDiff_abs in Hdiff by lia.
    repeat split; first [lia | exact Hs].
  - intros (He & Hf & Ht & [Hused Hcap] & Hdiff & Hmin & Hnum & Hs).
    rewrite gasLimitDiff_abs by lia.
    repeat split; first [lia | exact Hs].
Qed.

Lemma verifyHeader_succeeds_iff_witness :
  verifyHeader defaultParams exampleEngine 2000 (chainOf [genesis]) block2 block1 true = None.
Proof.
  apply (proj2 (verifyHeader_succeeds_iff defaultParams exampleEngine 2000
                  (chainOf [genesis]) block2 block1
                  ltac:(vm_compute; discriminate)
                  ltac:(split; vm_compute; discriminate))).
  repeat split; vm_compute; congruence.
Defined.

(** C1 as stated fails in both directions: a header with gasUsed = 0 is
    accepted, and a header that meets every listed condition but carries 33
    bytes of extra data is rejected. *)
Lemma verifyHeader_succeeds_iff_counterexample :
  (verifyHeader defaultParams exampleEngine 2000 (chainOf [genesis]) block1 genesis true = None
   /\ ~ 0 < GasUsed block1)
  /\
  (verifyHeader defaultParams exampleEngine 2000 (chainOf [genesis]) block1_extra genesis true
     = Some (errExtraTooLong 33 32)
   /\ Time block1_extra > Time genesis
   /\ 0 < GasUsed block1_extra <= GasLimit block1_extra
   /\ GasLimit block1_extra <= 2 ^ 63 - 1
   /\ Z.abs (GasLimit block1_extra - GasLimit genesis)
        < GasLimit genesis / GasLimitBoundDivisor defaultParams
   /\ Number block1_extra = Number genesis + 1
   /\ VerifySeal exampleEngine (chainOf [genesis]) block1_extra = None).
Proof.
  split.
  - split.
    + reflexivity.
    + vm_compute. discriminate.
  - repeat split; vm_compute; congruence.
Qed.

(** ** The seal check *)

(** [VerifySeal] reads nothing of a header but its number. *)
Lemma VerifySeal_by_number ethash chain chain' (h h' : Header) :
  Number h = Number h' ->
  VerifySeal ethash chain h = VerifySeal ethash chain' h'.
Proof. intros Hn. unfold VerifySeal. now rewrite Hn. Qed.

(** C5: with [seal = true] the outcome of [verifyHeader] does not depend on
    the seal of the header: replacing difficulty, mix digest and nonce by any
    other values leaves the result unchanged, so no proof-of-work or
    authority seal is ever rejected for being invalid; the only seal failure
    is the engine's configured failing block number.  With [seal = false]
    the engine's seal check has no influence at all. *)
Theorem verifyHeader_seal_not_validated params ethash now chain (h parent : Header)
    (difficulty mixDigest nonce : Z) :
  let h' := mkHeader (ParentHash h) (Coinbase h) (Root h) difficulty (Number h)
                     (GasLimit h) (GasUsed h) (Time h) (Extra h) mixDigest nonce in
  verifyHeader params ethash now chain h' parent true
    = verifyHeader params ethash now chain h parent true
  /\ (forall e, VerifySeal ethash chain h' = Some e ->
                e = errInvalidPoW /\ fakeFail ethash = Uint64 (Number h))
  /\ (forall ethash', verifyHeader params ethash' now chain h parent false
                      = verifyHeader params ethash now chain h parent false).
Proof.
  intros h'. split; [| split].
  - unfold verifyHeader, gasLimitDiff. subst h'. simpl.
    now rewrite (VerifySeal_by_number ethash chain chain _ h).
  - intros e. unfold VerifySeal. subst h'. simpl.
    destruct (Z.eqb_spec (fakeFail ethash) (Uint64 (Number h))) as [Heq | Hne].
    + intros [= <-]. now split.
    + discriminate.
  - intros ethash'. reflexivity.
Qed.

(** A header with difficulty 0 and no proof of work passes the seal check. *)
Example verifyHeader_accepts_unsealed :
  Difficulty block2 = 0 /\ Nonce block2 = 0 /\ MixDigest block2 = 0 /\
  verifyHeader defaultParams exampleEngine 2000 (chainOf [genesis; block1]) block2 block1 true
    = None.
Proof. repeat split. Qed.

(** ** The single-header entry point *)

(** C9: a header the chain already knows is accepted by [VerifyHeader] at
    once, whatever the clock, the seal flag and the rule checks would say. *)
Theorem VerifyHeader_known Hash params ethash now chain (header known : Header)
    (seal : bool) :
  GetHeader chain (Hash header) (Uint64 (Number header)) = Some known ->
  VerifyHeader Hash params ethash now chain header seal = None.
Proof.
  intros Hknown. unfold VerifyHeader. cbv zeta.
  rewrite Hknown. reflexivity.
Qed.

Lemma VerifyHeader_known_witness :
  VerifyHeader exampleHash defaultParams exampleEngine 2000
    (chainOf [genesis; block1; block2_gas]) block2_gas true = None
  /\ verifyHeader defaultParams exampleEngine 2000
       (chainOf [genesis; block1; block2_gas]) block2_gas block1 true
     = Some (errGasLimitBound 2000000 1000000 976).
Proof.
  split.
  - apply (VerifyHeader_known exampleHash defaultParams exampleEngine 2000
             (chainOf [genesis; block1; block2_gas]) block2_gas block2_gas true).
    reflexivity.
  - reflexivity.
Defined.

(** [verifyHeader] itself never reports an unknown ancestor. *)
Lemma verifyHeader_not_UnknownAncestor params ethash now chain header parent seal :
  verifyHeader params ethash now chain header parent seal <> Some ErrUnknownAncestor.
Proof.
  unfold verifyHeader, VerifySeal. cbv zeta.
  repeat match goal with
         | |- context [if ?b then _ else _] => destruct b
         end; discriminate.
Qed.

(** C4 (amended): the single entry point returns [ErrUnknownAncestor]
    exactly when the header is not already known to the chain and the chain
    has no header with its ParentHash at number-1; the batch worker, when it
    returns at position [i], returns [ErrUnknownAncestor] exactly when no
    parent is resolved: at position 0 the chain has no header with the
    ParentHash at number-1, at a later position the hash of the preceding
    batch entry differs from the ParentHash. *)
Theorem UnknownAncestor_iff Hash params ethash now chain :
  (forall (header : Header) (seal : bool),
     VerifyHeader Hash params ethash now chain header seal = Some ErrUnknownAncestor <->
       GetHeader chain (Hash header) (Uint64 (Number header)) = None /\
       GetHeader chain (ParentHash header) (wrap_u64 (Uint64 (Number header) - 1)) = None)
  /\
  (forall (headers : list Header) (seals : list bool) (i : nat) (h : Header)
          (r : option error),
     headers !! i = Some h ->
     verifyHeaderWorker Hash params ethash now chain headers seals i = Some r ->
     (r = Some ErrUnknownAncestor <->
        match i with
        | O => GetHeader chain (ParentHash h) (wrap_u64 (Uint64 (Number h) - 1)) = None
        | S j => exists p, headers !! j = Some p /\ Hash p <> ParentHash h
        end)).
Proof.
  split.
  - intros header seal. unfold VerifyHeader. cbv zeta.
    destruct (GetHeader chain (Hash header) (Uint64 (Number header))) as [known |].
    + split; [discriminate | intros [Hk _]; discriminate].
    + destruct (GetHeader chain (ParentHash header) _) as [parent |].
      * split; [| intros [_ Hp]; discriminate].
        intros Hv. now apply verifyHeader_not_UnknownAncestor in Hv.
      * split; [intros _; now split | reflexivity].
  - intros headers seals i h r Hh. unfold verifyHeaderWorker.
    rewrite Hh. simpl. destruct i as [| j].
    + simpl. destruct (GetHeader chain (ParentHash h) _) as [parent |].
      * destruct (GetHeader chain (Hash h) _) as [known |].
        { intros [= <-]. split; discriminate. }
        destruct (seals !! 0%nat) as [seal |]; simpl; [| discriminate].
        intros [= <-]. split; [| discriminate].
        intros Hv. now apply verifyHeader_not_UnknownAncestor in Hv.
      * intros [= <-]. split; reflexivity.
    + destruct (headers !! j) as [p |] eqn:Hp; simpl; [| discriminate].
      destruct (Z.eqb_spec (Hash p) (ParentHash h)) as [Heq | Hne].
      * destruct (GetHeader chain (Hash h) _) as [known |].
        { intros [= <-]. split; [discriminate |].
          intros (p' & [= <-] & Hne). now elim Hne. }
        destruct (seals !! S j) as [seal |]; simpl; [| discriminate].
        intros [= <-]. split.
        { intros Hv. now apply verifyHeader_not_UnknownAncestor in Hv. }
        { intros (p' & [= <-] & Hne). now elim Hne. }
      * intros [= <-]. split; [| reflexivity].
        intros _. exists p. now split.
Qed.

(** C4 as stated fails for the single entry point: the genesis header is
    known to the chain, its parent cannot be found, and the result is
    success, not [ErrUnknownAncestor]. *)
Lemma UnknownAncestor_iff_counterexample :
  GetHeader (chainOf [genesis]) (ParentHash genesis)
            (wrap_u64 (Uint64 (Number genesis) - 1)) = None
  /\ VerifyHeader exampleHash defaultParams exampleEngine 2000
       (chainOf [genesis]) genesis true = None.
Proof. split; reflexivity. Qed.

(** ** Finalisation *)

Lemma getAccount_AddBalance_eq (s : gmap Z Account) (addr amount : Z) :
  getAccount (AddBalance s addr amount) addr
  = mkAccount (Balance (getAccount s addr) + amount) (AccountNonce (getAccount s addr))
              (StorageRoot (getAccount s addr)) (CodeHash (getAccount s addr)).
Proof. unfold getAccount at 1, AddBalance. now rewrite lookup_insert_eq. Qed.

Lemma lookup_AddBalance_ne (s : gmap Z Account) (addr other amount : Z) :
  other <> addr -> AddBalance s addr amount !! other = s !! other.
Proof. intros Hne. unfold AddBalance. now rewrite lookup_insert_ne. Qed.

Lemma GetBalance_AddBalance_eq (s : gmap Z Account) (addr amount : Z) :
  GetBalance (AddBalance s addr amount) addr = GetBalance s addr + amount.
Proof. unfold GetBalance. now rewrite getAccount_AddBalance_eq. Qed.

(** The reward [accumulateRewards] selects. *)
Lemma accumulateRewards_state (config : ChainConfig) (m : Store) :
  stateDB (accumulateRewards config m)
  = AddBalance (stateDB m) (Coinbase (hdr m))
      (if IsByzantium config (Number (hdr m)) then ByzantiumBlockReward
       else FrontierBlockReward).
Proof. reflexivity. Qed.

Lemma reward_constants : 0 < ByzantiumBlockReward < FrontierBlockReward.
Proof. unfold ByzantiumBlockReward, FrontierBlockReward. lia. Qed.

(** C6: with the transition block configured at [b], [Finalize] returns no
    error, leaves the state equal to the input state with exactly one credit
    to the header's coinbase, of [FrontierBlockReward] (the higher constant)
    when the header's number is below [b] and of [ByzantiumBlockReward] (the
    lower constant) from [b] onward, writes the root of that state into the
    header's [Root], and assembles the block from the header so updated. *)
Theorem Finalize_rewards_coinbase (Transaction Receipt Block : Type)
    (IntermediateRoot : bool -> gmap Z Account -> common_Hash)
    (NewBlock : Header -> list Transaction -> list Receipt -> Block)
    (chain : ChainReader) (m : Store) (txs : list Transaction)
    (receipts : list Receipt) (b : Z) :
  ByzantiumBlock (Config chain) = Some b ->
  let reward := if Number (hdr m) <? b then FrontierBlockReward
                else ByzantiumBlockReward in
  let result := Finalize Transaction Receipt Block IntermediateRoot NewBlock
                         chain m txs receipts in
  let block := fst (fst result) in
  let m' := snd result in
  snd (fst result) = None /\
  stateDB m' = AddBalance (stateDB m) (Coinbase (hdr m)) reward /\
  GetBalance (stateDB m') (Coinbase (hdr m))
    = GetBalance (stateDB m) (Coinbase (hdr m)) + reward /\
  hdr m' = set_Root (hdr m) (IntermediateRoot true (stateDB m')) /\
  block = NewBlock (hdr m') txs receipts /\
  ByzantiumBlockReward < FrontierBlockReward.
Proof.
  intros Hb reward result block m'.
  assert (Hst : stateDB m' = AddBalance (stateDB m) (Coinbase (hdr m)) reward).
  { subst m' result reward. unfold Finalize. simpl.
    unfold IsByzantium. rewrite Hb.
    destruct (Z.leb_spec b (Number (hdr m))) as [Hle | Hlt];
      destruct (Z.ltb_spec (Number (hdr m)) b) as [Hlt' | Hge]; try lia; reflexivity. }
  split; [reflexivity |].
  split; [exact Hst |].
  split; [rewrite Hst; apply GetBalance_AddBalance_eq |].
  split; [reflexivity |].
  split; [reflexivity | apply reward_constants].
Qed.

Lemma Finalize_rewards_coinbase_witness :
  let result := Finalize unit unit (Header * list unit * list unit)%type
                  (fun _ s => GetBalance s 7) (fun h txs rs => (h, txs, rs))
                  (chainOf [genesis]) (mkStore ∅ block1) [tt] [] in
  GetBalance (stateDB (snd result)) 7 = 5 * 10 ^ 18
  /\ Root (hdr (snd result)) = 5 * 10 ^ 18.
Proof.
  pose proof (Finalize_rewards_coinbase unit unit (Header * list unit * list unit)%type
                (fun _ s => GetBalance s 7) (fun h txs rs => (h, txs, rs))
                (chainOf [genesis]) (mkStore ∅ block1) [tt] [] 100 eq_refl)
    as (_ & Hst & Hbal & Hhdr & _).
  cbv zeta in *. split.
  - etransitivity; [exact Hbal | reflexivity].
  - etransitivity; [exact (f_equal Root Hhdr) | reflexivity].
Defined.

(** C10: [accumulateRewards] leaves the header as it was, leaves the account
    of every address other than the header's coinbase as it was, and changes
    nothing of the coinbase's account but its balance, which grows by the
    (positive) reward. *)
Theorem accumulateRewards_frame (config : ChainConfig) (m : Store) :
  let m' := accumulateRewards config m in
  let coinbase := Coinbase (hdr m) in
  hdr m' = hdr m /\
  (forall addr : Z, addr <> coinbase -> stateDB m' !! addr = stateDB m !! addr) /\
  AccountNonce (getAccount (stateDB m') coinbase)
    = AccountNonce (getAccount (stateDB m) coinbase) /\
  StorageRoot (getAccount (stateDB m') coinbase)
    = StorageRoot (getAccount (stateDB m) coinbase) /\
  CodeHash (getAccount (stateDB m') coinbase)
    = CodeHash (getAccount (stateDB m) coinbase) /\
  GetBalance (stateDB m') coinbase > GetBalance (stateDB m) coinbase.
Proof.
  intros m' coinbase. subst m' coinbase.
  rewrite accumulateRewards_state.
  split; [reflexivity |].
  split; [intros addr Hne; now apply lookup_AddBalance_ne |].
  rewrite GetBalance_AddBalance_eq, getAccount_AddBalance_eq. simpl.
  repeat split.
  pose proof reward_constants.
  destruct (IsByzantium config (Number (hdr m))); lia.
Qed.

(** ** Batch verification *)

Local Close Scope Z_scope.

Lemma sum_list_with_insert {A : Type} (f : A -> nat) (l : list A) (i : nat) (x y : A) :
  l !! i = Some y ->
  sum_list_with f (<[i := x]> l) + f y = sum_list_with f l + f x.
Proof.
  revert i. induction l as [| a l IH]; intros i Hi; [discriminate |].
  destruct i as [| i]; simpl in *.
  - injection Hi as ->. lia.
  - specialize (IH i Hi). lia.
Qed.

Lemma sum_list_with_zero {A : Type} (f : A -> nat) (l : list A) :
  Forall (fun a => f a = 0) l -> sum_list_with f l = 0.
Proof. induction 1 as [| a l Ha _ IH]; simpl; lia. Qed.

Lemma sum_list_with_replicate {A : Type} (f : A -> nat) (n : nat) (a : A) :
  sum_list_with f (replicate n a) = n * f a.
Proof. induction n as [| n IH]; simpl; lia. Qed.

Lemma replicate_pos {A : Type} (n : nat) (x : A) :
  1 <= n -> replicate n x = x :: replicate (n - 1) x.
Proof. destruct n as [| n]; [lia |]. intros _. simpl. now rewrite Nat.sub_0_r. Qed.

(** Every worker is busy with an index, about to report one, or neither. *)
Lemma workers_cases (ws : list worker) :
  (exists w i, ws !! w = Some (WBusy i)) \/
  (exists w i, ws !! w = Some (WSend i)) \/
  Forall (fun x => x = WIdle \/ x = WExit) ws.
Proof.
  induction ws as [| x ws IH].
  - right. right. constructor.
  - destruct x as [| i | i |].
    + destruct IH as [(w & i & Hw) | [(w & i & Hw) | Hall]].
      * left. now exists (S w), i.
      * right. left. now exists (S w), i.
      * right. right. constructor; [now left | exact Hall].
    + left. now exists 0, i.
    + right. left. now exists 0, i.
    + destruct IH as [(w & i & Hw) | [(w & i & Hw) | Hall]].
      * left. now exists (S w), i.
      * right. left. now exists (S w), i.
      * right. right. constructor; [now right | exact Hall].
Qed.

Section BatchProperties.

Variable Hash : Header -> common_Hash.
Variable params : ProtocolParams.
Variable ethash : dops.
Variable chain : ChainReader.
Variable headers : list Header.
Variable seals : list bool.
Variable maxprocs : nat.
Variables tmin tmax : Z.

Local Abbreviation exec := (exec Hash params ethash chain headers seals maxprocs tmin tmax).
Local Abbreviation run := (run Hash params ethash chain headers seals maxprocs tmin tmax).
Local Abbreviation reachable := (reachable Hash params ethash chain headers seals maxprocs tmin tmax).
Local Abbreviation outcome_of := (outcome_of Hash params ethash chain headers seals tmin tmax).
Local Abbreviation initial := (VerifyHeaders headers maxprocs).
Local Abbreviation nworkers := (nworkers headers maxprocs).
Local Abbreviation potential := (potential headers).
Local Abbreviation stuck := (stuck Hash params ethash chain headers seals maxprocs tmin tmax).
Local Abbreviation inv := (inv Hash params ethash chain headers seals maxprocs tmin tmax).

Lemma nworkers_le : nworkers <= length headers.
Proof. unfold nworkers. destruct (Nat.ltb_spec (length headers) maxprocs); lia. Qed.

Lemma nworkers_pos : 1 <= maxprocs -> 1 <= length headers -> 1 <= nworkers.
Proof.
  intros Hm Hn. unfold nworkers.
  destruct (Nat.ltb_spec (length headers) maxprocs); lia.
Qed.

Lemma inv_initial : inv initial.
Proof.
  unfold VerifyHeaders.
  destruct (Nat.eqb_spec (length headers) 0) as [Hz | Hnz].
  - assert (Hw : nworkers = 0).
    { unfold nworkers. rewrite Hz. now destruct maxprocs. }
    constructor; simpl.
    + now rewrite Hz.
    + now rewrite Hz.
    + now rewrite Hw.
    + intros k Hk. discriminate.
    + intros w i Hwi. discriminate.
    + intros i Hi. inversion Hi.
    + intros k Hk. lia.
    + reflexivity.
    + split; [lia | right; now rewrite Hz].
    + rewrite Hz. split; [reflexivity | lia].
    + intros i. reflexivity.
    + intros Hne. now elim Hne.
  - constructor; simpl.
    + apply length_replicate.
    + apply length_replicate.
    + apply length_replicate.
    + intros k Hk. apply lookup_replicate in Hk. destruct Hk; discriminate.
    + intros w i Hw. apply lookup_replicate in Hw. destruct Hw; discriminate.
    + intros i Hi. inversion Hi.
    + intros k Hk. lia.
    + reflexivity.
    + split; [reflexivity | split; [lia |]].
      apply lookup_replicate. split; [reflexivity | lia].
    + split; [| lia]. now destruct (length headers).
    + intros i. unfold tokens. simpl.
      rewrite sum_list_with_replicate. simpl.
      destruct (replicate (length headers) false !! i) as [b |] eqn:Hb.
      * apply lookup_replicate in Hb. destruct Hb as [-> _]. lia.
      * lia.
    + intros _ w Hw. apply lookup_replicate in Hw. destruct Hw; discriminate.
Qed.

Lemma insert_worker_Some (ws : list worker) (w w' : nat) (x y : worker) :
  <[w := x]> ws !! w' = Some y -> (w' = w /\ y = x) \/ (w' <> w /\ ws !! w' = Some y).
Proof.
  intros Hl. apply list_lookup_insert_Some in Hl.
  destruct Hl as [(-> & -> & _) | (Hne & Hl)]; [left | right]; split; congruence.
Qed.

Lemma sum_list_with_lookup {A : Type} (f : A -> nat) (l : list A) (i : nat) (x : A) :
  l !! i = Some x -> f x <= sum_list_with f l.
Proof.
  revert i. induction l as [| a l IH]; intros i Hi; [discriminate |].
  destruct i as [| i]; simpl in *.
  - injection Hi as ->. lia.
  - specialize (IH i Hi). lia.
Qed.

Lemma sum_is_index_elem (i : nat) (l : list nat) :
  i ∈ l -> 1 <= sum_list_with (is_index i) l.
Proof.
  induction 1 as [i l | i j l _ IH]; simpl.
  - unfold is_index. rewrite Nat.eqb_refl. lia.
  - lia.
Qed.

(** Storing a worker's outcome keeps every slot a recorded outcome. *)
Lemma slot_insert (es : list (option error)) (i k : nat) (r : option error) :
  i < length es -> outcome_of i r ->
  (exists e, es !! k = Some e /\ outcome_of k e) ->
  exists e, <[i := r]> es !! k = Some e /\ outcome_of k e.
Proof.
  intros Hi Hr (e & He & Ho).
  destruct (decide (i = k)) as [<- | Hne].
  - exists r. split; [now apply list_lookup_insert_eq | exact Hr].
  - exists e. split; [now rewrite list_lookup_insert_ne | exact Ho].
Qed.

Lemma verifyHeaderWorker_Some_lt now (i : nat) (r : option error) :
  verifyHeaderWorker Hash params ethash now chain headers seals i = Some r ->
  i < length headers.
Proof.
  unfold verifyHeaderWorker. intros Hr.
  destruct (headers !! i) as [h |] eqn:Hh; [| discriminate].
  now apply lookup_lt_Some in Hh.
Qed.

Ltac open_inv Hinv :=
  destruct Hinv as [Hcl Hel Hwl Hck Hsd Hdn Hem Hpre Hsq Hin Htk Hx].

Lemma exec_inv_Dispatch (w : nat) (s s' : state) :
  inv s -> exec (Dispatch w) s = Some s' -> inv s'.
Proof.
  intros Hinv Hex. unfold exec in Hex.
  destruct (seqr s) eqn:Hq; try discriminate.
  destruct (inputs_nil s) eqn:Hnil; try discriminate.
  destruct (workers s !! w) as [[| | |] |] eqn:Hw; try discriminate.
  injection Hex as <-. open_inv Hinv. constructor; simpl.
  - exact Hcl.
  - exact Hel.
  - now rewrite length_insert.
  - exact Hck.
  - intros w' i Hw'. apply insert_worker_Some in Hw'.
    destruct Hw' as [[_ [=]] | [_ Hw']]. now apply (Hsd w' i).
  - exact Hdn.
  - exact Hem.
  - exact Hpre.
  - rewrite Hq in Hsq. exact Hsq.
  - destruct Hin as [Hn Hle]. split; [reflexivity |].
    rewrite Hnil in Hn. symmetry in Hn. apply Nat.eqb_neq in Hn. lia.
  - intros i. specialize (Htk i). unfold tokens in *. simpl.
    pose proof (sum_list_with_insert (holds i) (workers s) w (WBusy (inp s)) WIdle Hw) as Hsum.
    simpl in Hsum.
    destruct (Nat.eqb_spec (inp s) i) as [Heq | Hne];
      destruct (Nat.ltb_spec i (inp s)); destruct (Nat.ltb_spec i (S (inp s))); lia.
  - intros _ w' Hw'. apply insert_worker_Some in Hw'.
    destruct Hw' as [[_ [=]] | [_ Hw']].
    rewrite Hq in Hx. now apply (Hx ltac:(discriminate) w').
Qed.

Lemma exec_inv_Compute (w : nat) (now : Z) (s s' : state) :
  inv s -> exec (Compute w now) s = Some s' -> inv s'.
Proof.
  intros Hinv Hex. unfold exec in Hex.
  destruct (workers s !! w) as [[| i | |] |] eqn:Hw; try discriminate.
  destruct ((tmin <=? now)%Z && (now <=? tmax)%Z) eqn:Hnow; try discriminate.
  destruct (verifyHeaderWorker Hash params ethash now chain headers seals i)
    as [r |] eqn:Hr; try discriminate.
  simpl in Hex. injection Hex as <-. open_inv Hinv.
  assert (Hi : i < length (errors s)).
  { rewrite Hel. eapply verifyHeaderWorker_Some_lt, Hr. }
  assert (Ho : outcome_of i r).
  { exists now. split; [| exact Hr].
    apply andb_true_iff in Hnow. destruct Hnow as [H1 H2].
    apply Z.leb_le in H1. apply Z.leb_le in H2. lia. }
  assert (Hunchecked : checked s !! i <> Some true).
  { intros Hc. specialize (Htk i). unfold tokens in Htk. rewrite Hc in Htk.
    pose proof (sum_list_with_lookup (holds i) _ _ _ Hw) as Hge. simpl in Hge.
    rewrite Nat.eqb_refl in Hge.
    destruct (i <? inp s); lia. }
  constructor; simpl.
  - exact Hcl.
  - now rewrite length_insert.
  - now rewrite length_insert.
  - intros k Hk. apply slot_insert; auto.
  - intros w' i' Hw'. apply insert_worker_Some in Hw'.
    destruct Hw' as [[_ [= ->]] | [_ Hw']].
    + exists r. split; [now apply list_lookup_insert_eq | exact Ho].
    + apply slot_insert; auto. now apply (Hsd w' i').
  - intros i' Hi'. apply slot_insert; auto.
  - exact Hem.
  - rewrite take_insert_ge; [exact Hpre |].
    destruct (Nat.le_gt_cases (length (errorsOut s)) i) as [Hle | Hlt]; [exact Hle |].
    elim Hunchecked. now apply Hem.
  - exact Hsq.
  - exact Hin.
  - intros k. specialize (Htk k). unfold tokens in *. simpl.
    pose proof (sum_list_with_insert (holds k) (workers s) w (WSend i) (WBusy i) Hw) as Hsum.
    simpl in Hsum. lia.
  - intros Hne w' Hw'. apply insert_worker_Some in Hw'.
    destruct Hw' as [[_ [=]] | [_ Hw']]. now apply (Hx Hne w').
Qed.

Lemma exec_inv_Report (w : nat) (s s' : state) :
  inv s -> exec (Report w) s = Some s' -> inv s'.
Proof.
  intros Hinv Hex. unfold exec in Hex.
  destruct (workers s !! w) as [[| | i |] |] eqn:Hw; try discriminate.
  destruct (length (done s) <? nworkers) eqn:Hcap; try discriminate.
  injection Hex as <-. open_inv Hinv. constructor; simpl.
  - exact Hcl.
  - exact Hel.
  - now rewrite length_insert.
  - exact Hck.
  - intros w' i' Hw'. apply insert_worker_Some in Hw'.
    destruct Hw' as [[_ [=]] | [_ Hw']]. now apply (Hsd w' i').
  - intros i' Hi'. apply elem_of_app in Hi'. destruct Hi' as [Hi' | Hi'].
    + now apply Hdn.
    + apply list_elem_of_singleton in Hi'. subst i'. now apply (Hsd w i).
  - exact Hem.
  - exact Hpre.
  - exact Hsq.
  - exact Hin.
  - intros k. specialize (Htk k). unfold tokens in *. simpl.
    pose proof (sum_list_with_insert (holds k) (workers s) w WIdle (WSend i) Hw) as Hsum.
    simpl in Hsum. rewrite sum_list_with_app. simpl. unfold is_index at 2. lia.
  - intros Hne w' Hw'. apply insert_worker_Some in Hw'.
    destruct Hw' as [[_ [=]] | [_ Hw']]. now apply (Hx Hne w').
Qed.

Lemma exec_inv_Collect (s s' : state) :
  inv s -> exec Collect s = Some s' -> inv s'.
Proof.
  intros Hinv Hex. unfold exec in Hex.
  destruct (seqr s) eqn:Hq; try discriminate.
  destruct (done s) as [| i rest] eqn:Hd; try discriminate.
  destruct (checked s !! i) as [b |] eqn:Hb; try discriminate.
  injection Hex as <-. open_inv Hinv.
  assert (Hi : i < length (checked s)) by now apply lookup_lt_Some in Hb.
  assert (Hfalse : checked s !! i <> Some true).
  { intros Hc. specialize (Htk i). unfold tokens in Htk. rewrite Hc, Hd in Htk.
    simpl in Htk. unfold is_index at 1 in Htk. rewrite Nat.eqb_refl in Htk.
    destruct (i <? inp s); lia. }
  rewrite Hq in Hsq. destruct Hsq as (Hlen & Hout & Hco).
  constructor; simpl.
  - now rewrite length_insert.
  - exact Hel.
  - exact Hwl.
  - intros k Hk. destruct (decide (i = k)) as [<- | Hne].
    + apply Hdn. rewrite Hd. now left.
    + rewrite list_lookup_insert_ne in Hk by exact Hne. now apply Hck.
  - exact Hsd.
  - intros i' Hi'. apply Hdn. rewrite Hd. now right.
  - intros k Hk. destruct (decide (i = k)) as [<- | Hne].
    + now apply list_lookup_insert_eq.
    + rewrite list_lookup_insert_ne by exact Hne. now apply Hem.
  - exact Hpre.
  - now split.
  - exact Hin.
  - intros k. specialize (Htk k). unfold tokens in *. simpl.
    rewrite Hd in Htk. simpl in Htk.
    destruct (decide (i = k)) as [<- | Hne].
    + rewrite list_lookup_insert_eq by exact Hi.
      unfold is_index at 1 in Htk. rewrite Nat.eqb_refl in Htk.
      rewrite Hb in Htk. destruct b; [now elim Hfalse | lia].
    + rewrite list_lookup_insert_ne by exact Hne.
      unfold is_index at 1 in Htk.
      destruct (Nat.eqb_spec i k); [contradiction | lia].
  - intros _. apply Hx. rewrite Hq. discriminate.
Qed.

Lemma exec_inv_Emit (s s' : state) :
  inv s -> exec Emit s = Some s' -> inv s'.
Proof.
  intros Hinv Hex. unfold exec in Hex.
  destruct (seqr s) eqn:Hq; try discriminate.
  destruct (checked s !! out s) as [[|] |] eqn:Hc; try discriminate.
  destruct (errors s !! out s) as [e |] eqn:He; try discriminate.
  open_inv Hinv. rewrite Hq in Hsq. destruct Hsq as (Hlen & Hout).
  assert (Hpre' : errorsOut s ++ [e]
                  = take (length (errorsOut s ++ [e])) (errors s)).
  { rewrite length_app. simpl. rewrite Nat.add_1_r, Hlen.
    rewrite (take_S_r _ _ _ He). rewrite <- Hlen. f_equal. exact Hpre. }
  assert (Hem' : forall k, k < length (errorsOut s ++ [e]) ->
                           checked s !! k = Some true).
  { intros k. rewrite length_app. simpl. intros Hk.
    destruct (decide (k = out s)) as [-> | Hne]; [exact Hc |].
    apply Hem. lia. }
  destruct (Nat.eqb_spec (out s) (length headers - 1)) as [Hlast | Hmore];
    injection Hex as <-; constructor; simpl;
    try exact Hcl; try exact Hel; try exact Hwl; try exact Hck; try exact Hsd;
    try exact Hdn; try exact Hem'; try exact Hpre'; try exact Hin; try exact Htk.
  - rewrite length_app. simpl. split; [lia | right; lia].
  - intros Hne. now elim Hne.
  - rewrite length_app. simpl. split; lia.
  - intros _. apply Hx. rewrite Hq. discriminate.
Qed.

Lemma exec_inv_Resume (s s' : state) :
  inv s -> exec Resume s = Some s' -> inv s'.
Proof.
  intros Hinv Hex. unfold exec in Hex.
  destruct (seqr s) eqn:Hq; try discriminate.
  destruct (checked s !! out s) as [[|] |] eqn:Hc; try discriminate.
  injection Hex as <-. open_inv Hinv.
  rewrite Hq in Hsq. destruct Hsq as (Hlen & Hout).
  constructor; simpl; try assumption.
  - now repeat split.
  - intros _. apply Hx. rewrite Hq. discriminate.
Qed.

Lemma exec_inv_Abort (s s' : state) :
  inv s -> exec Abort s = Some s' -> inv s'.
Proof.
  intros Hinv Hex. unfold exec in Hex.
  destruct (seqr s) eqn:Hq; try discriminate.
  destruct (abort s) eqn:Ha; try discriminate.
  injection Hex as <-. open_inv Hinv.
  rewrite Hq in Hsq. destruct Hsq as (Hlen & Hout & _).
  constructor; simpl; try assumption.
  - split; [lia | now left].
  - intros Hne. now elim Hne.
Qed.

Lemma exec_inv_RaiseAbort (s s' : state) :
  inv s -> exec RaiseAbort s = Some s' -> inv s'.
Proof.
  intros Hinv Hex. unfold exec in Hex.
  destruct (abort s) eqn:Ha; try discriminate.
  injection Hex as <-. open_inv Hinv.
  constructor; simpl; try assumption.
  destruct (seqr s); try assumption.
  split; [apply Hsq | now left].
Qed.

Lemma exec_inv_Leave (w : nat) (s s' : state) :
  inv s -> exec (Leave w) s = Some s' -> inv s'.
Proof.
  intros Hinv Hex. unfold exec in Hex.
  destruct (seqr s) eqn:Hq; try discriminate.
  destruct (workers s !! w) as [[| | |] |] eqn:Hw; try discriminate.
  injection Hex as <-. open_inv Hinv. rewrite Hq in Hsq.
  constructor; simpl; try assumption.
  - now rewrite length_insert.
  - intros w' i Hw'. apply insert_worker_Some in Hw'.
    destruct Hw' as [[_ [=]] | [_ Hw']]. now apply (Hsd w' i).
  - intros k. specialize (Htk k). unfold tokens in *. simpl.
    pose proof (sum_list_with_insert (holds k) (workers s) w WExit WIdle Hw) as Hsum.
    simpl in Hsum. lia.
  - intros Hne. now elim Hne.
Qed.

Lemma exec_inv (l : label) (s s' : state) :
  inv s -> exec l s = Some s' -> inv s'.
Proof.
  destruct l.
  - apply exec_inv_Dispatch.
  - apply exec_inv_Compute.
  - apply exec_inv_Report.
  - apply exec_inv_Collect.
  - apply exec_inv_Emit.
  - apply exec_inv_Resume.
  - apply exec_inv_Abort.
  - apply exec_inv_RaiseAbort.
  - apply exec_inv_Leave.
Qed.

Lemma run_inv (ls : list label) (s s' : state) :
  inv s -> run ls s = Some s' -> inv s'.
Proof.
  revert s. induction ls as [| l ls IH]; intros s Hinv Hrun; simpl in Hrun.
  - now injection Hrun as <-.
  - destruct (exec l s) as [s1 |] eqn:Hex; [| discriminate].
    simpl in Hrun. eapply IH; [| exact Hrun]. eapply exec_inv; eauto.
Qed.

Lemma reachable_inv (s : state) : reachable s -> inv s.
Proof. intros [ls Hrun]. eapply run_inv; [apply inv_initial | exact Hrun]. Qed.

Lemma run_app (ls1 ls2 : list label) (s : state) :
  run (ls1 ++ ls2) s = s' ← run ls1 s; run ls2 s'.
Proof.
  revert s. induction ls1 as [| l ls1 IH]; intros s; simpl; [reflexivity |].
  destruct (exec l s) as [s1 |]; simpl; [apply IH | reflexivity].
Qed.

Lemma reachable_run (ls : list label) (s s' : state) :
  reachable s -> run ls s = Some s' -> reachable s'.
Proof.
  intros [ls0 H0] Hrun. exists (ls0 ++ ls). rewrite run_app, H0. exact Hrun.
Qed.

Lemma run_app_Some (ls1 ls2 : list label) (s s1 : state) :
  run ls1 s = Some s1 -> run (ls1 ++ ls2) s = run ls2 s1.
Proof. intros H1. now rewrite run_app, H1. Qed.

(** The results sent so far are the first slots of [errors], and the one at
    position [k] is an outcome of verifying header [k]. *)
Lemma inv_emitted_outcomes (s : state) :
  inv s ->
  errorsOut s = take (length (errorsOut s)) (errors s) /\
  length (errorsOut s) <= length headers /\
  forall k e, errorsOut s !! k = Some e -> outcome_of k e.
Proof.
  intros Hinv. open_inv Hinv. split; [exact Hpre | split].
  - destruct (seqr s); lia.
  - intros k e Hk.
    assert (Hlt : k < length (errorsOut s)) by now apply lookup_lt_Some in Hk.
    destruct (Hck k (Hem k Hlt)) as (e' & He' & Ho).
    rewrite Hpre, lookup_take_lt in Hk by exact Hlt.
    congruence.
Qed.

Lemma verifyHeaderWorker_total now (i : nat) :
  length headers <= length seals -> i < length headers ->
  exists r, verifyHeaderWorker Hash params ethash now chain headers seals i = Some r.
Proof.
  intros Hseals Hi. unfold verifyHeaderWorker.
  destruct (lookup_lt_is_Some_2 headers i Hi) as [h Hh].
  destruct (lookup_lt_is_Some_2 seals i ltac:(lia)) as [b Hb].
  rewrite Hh, Hb. simpl. destruct i as [| j]; simpl.
  - destruct (GetHeader chain (ParentHash h) _); [| eauto].
    destruct (GetHeader chain (Hash h) _); eauto.
  - destruct (lookup_lt_is_Some_2 headers j ltac:(lia)) as [p Hp].
    rewrite Hp. simpl. destruct (Hash p =? ParentHash h)%Z; [| eauto].
    destruct (GetHeader chain (Hash h) _); eauto.
Qed.

Lemma exec_abort (l : label) (s s' : state) :
  exec l s = Some s' -> l <> RaiseAbort -> abort s' = abort s.
Proof.
  intros Hex Hl. destruct l; unfold exec in Hex; try congruence;
    repeat match type of Hex with
           | match ?x with _ => _ end = Some _ => destruct x; try discriminate Hex
           | (_ ≫= _) = Some _ =>
               apply bind_Some in Hex; destruct Hex as (? & _ & Hex)
           end;
    injection Hex as <-; reflexivity.
Qed.

(** Every action uses up potential: schedules are finite. *)
Lemma exec_potential (l : label) (s s' : state) :
  inv s -> exec l s = Some s' -> potential s' < potential s.
Proof.
  intros Hinv Hex. open_inv Hinv. destruct Hin as [Hn Hle].
  destruct l; unfold exec in Hex.
  - destruct (seqr s) eqn:Hq; try discriminate.
    destruct (inputs_nil s) eqn:Hnil; try discriminate.
    destruct (workers s !! w) as [[| | |] |] eqn:Hw; try discriminate.
    injection Hex as <-. unfold potential. simpl.
    pose proof (sum_list_with_insert worker_weight (workers s) w (WBusy (inp s)) WIdle Hw)
      as Hsum.
    simpl in Hsum. rewrite Hq. simpl.
    symmetry in Hn. apply Nat.eqb_neq in Hn. lia.
  - destruct (workers s !! w) as [[| i | |] |] eqn:Hw; try discriminate.
    destruct ((tmin <=? now)%Z && (now <=? tmax)%Z); try discriminate.
    destruct (verifyHeaderWorker Hash params ethash now chain headers seals i)
      as [r |]; try discriminate.
    simpl in Hex. injection Hex as <-. unfold potential. simpl.
    pose proof (sum_list_with_insert worker_weight (workers s) w (WSend i) (WBusy i) Hw)
      as Hsum.
    simpl in Hsum. lia.
  - destruct (workers s !! w) as [[| | i |] |] eqn:Hw; try discriminate.
    destruct (length (done s) <? nworkers); try discriminate.
    injection Hex as <-. unfold potential. simpl.
    pose proof (sum_list_with_insert worker_weight (workers s) w WIdle (WSend i) Hw)
      as Hsum.
    simpl in Hsum. rewrite length_app. simpl. lia.
  - destruct (seqr s) eqn:Hq; try discriminate.
    destruct (done s) as [| i rest] eqn:Hd; try discriminate.
    destruct (checked s !! i); try discriminate.
    injection Hex as <-. unfold potential. simpl.
    rewrite Hq, Hd. simpl. lia.
  - destruct (seqr s) eqn:Hq; try discriminate.
    destruct (checked s !! out s) as [[|] |]; try discriminate.
    destruct (errors s !! out s); try discriminate.
    destruct Hsq as [_ Hout].
    destruct (out s =? length headers - 1);
      injection Hex as <-; unfold potential; simpl; rewrite Hq; simpl; lia.
  - destruct (seqr s) eqn:Hq; try discriminate.
    destruct (checked s !! out s) as [[|] |]; try discriminate.
    injection Hex as <-. unfold potential. simpl. rewrite Hq. simpl. lia.
  - destruct (seqr s) eqn:Hq; try discriminate.
    destruct (abort s) eqn:Ha; try discriminate.
    injection Hex as <-. unfold potential. simpl. rewrite Hq, Ha. simpl. lia.
  - destruct (abort s) eqn:Ha; try discriminate.
    injection Hex as <-. unfold potential. simpl. rewrite Ha. lia.
  - destruct (seqr s) eqn:Hq; try discriminate.
    destruct (workers s !! w) as [[| | |] |] eqn:Hw; try discriminate.
    injection Hex as <-. unfold potential. simpl.
    pose proof (sum_list_with_insert worker_weight (workers s) w WExit WIdle Hw) as Hsum.
    simpl in Hsum. rewrite Hq. simpl. lia.
Qed.

(** Until the sequencer has returned, some goroutine can act: no deadlock. *)
Lemma progress (s : state) :
  1 <= maxprocs -> length headers <= length seals -> (tmin <= tmax)%Z ->
  inv s -> seqr s <> SReturned ->
  exists l s', l <> RaiseAbort /\ exec l s = Some s'.
Proof.
  intros Hprocs Hseals Hclock Hinv Hrun. open_inv Hinv. destruct Hin as [Hn Hle].
  destruct (seqr s) eqn:Hq; [| | now elim Hrun].
  - destruct Hsq as (Hlen & Hout & Hco).
    destruct (done s) as [| i rest] eqn:Hd.
    + destruct (workers_cases (workers s)) as [(w & i & Hw) | [(w & i & Hw) | Hall]].
      * assert (Hi : i < length headers).
        { specialize (Htk i). unfold tokens in Htk.
          pose proof (sum_list_with_lookup (holds i) _ _ _ Hw) as Hge. simpl in Hge.
          rewrite Nat.eqb_refl in Hge.
          destruct (Nat.ltb_spec i (inp s)); lia. }
        destruct (verifyHeaderWorker_total tmin i Hseals Hi) as [r Hr].
        exists (Compute w tmin), (mkState (<[w := WSend i]> (workers s)) (seqr s) (inp s)
          (out s) (inputs_nil s) (checked s) (<[i := r]> (errors s)) (done s)
          (errorsOut s) (abort s)).
        split; [discriminate |]. unfold exec. rewrite Hw.
        rewrite (proj2 (Z.leb_le tmin tmin) ltac:(lia)).
        rewrite (proj2 (Z.leb_le tmin tmax) Hclock). simpl. now rewrite Hr.
      * exists (Report w), (mkState (<[w := WIdle]> (workers s)) (seqr s) (inp s)
          (out s) (inputs_nil s) (checked s) (errors s) (done s ++ [i])
          (errorsOut s) (abort s)).
        split; [discriminate |]. unfold exec. rewrite Hw, Hd. simpl.
        apply lookup_lt_Some in Hw. rewrite Hwl in Hw.
        destruct (Nat.ltb_spec 0 nworkers); [reflexivity | lia].
      * assert (Hnone : forall k, sum_list_with (holds k) (workers s) = 0).
        { intros k. apply sum_list_with_zero.
          eapply Forall_impl; [exact Hall |]. intros x [-> | ->]; reflexivity. }
        destruct (inputs_nil s) eqn:Hnil.
        -- symmetry in Hn. apply Nat.eqb_eq in Hn.
           specialize (Htk (out s)). unfold tokens in Htk.
           rewrite Hnone, Hd, Hco in Htk. simpl in Htk.
           destruct (Nat.ltb_spec (out s) (inp s)); lia.
        -- assert (Hw0 : workers s !! 0 = Some WIdle).
           { pose proof (nworkers_pos Hprocs ltac:(lia)) as Hpos.
             destruct (lookup_lt_is_Some_2 (workers s) 0 ltac:(lia)) as [x Hx0].
             destruct (Forall_lookup_1 _ _ _ _ Hall Hx0) as [-> | ->]; [exact Hx0 |].
             exfalso. now apply (Hx ltac:(discriminate) 0). }
           exists (Dispatch 0), (mkState (<[0 := WBusy (inp s)]> (workers s)) SSelect
             (S (inp s)) (out s) (S (inp s) =? length headers) (checked s) (errors s)
             (done s) (errorsOut s) (abort s)).
           split; [discriminate |]. unfold exec.
           now rewrite Hq, Hnil, Hw0.
    + assert (Hi : is_Some (checked s !! i)).
      { apply lookup_lt_is_Some. rewrite Hcl, <- Hel.
        destruct (Hdn i) as (e & He & _); [now left |].
        now apply lookup_lt_Some in He. }
      destruct Hi as [b Hb].
      exists Collect, (mkState (workers s) SDrain (inp s) (out s) (inputs_nil s)
        (<[i := true]> (checked s)) (errors s) rest (errorsOut s) (abort s)).
      split; [discriminate |]. unfold exec. now rewrite Hq, Hd, Hb.
  - destruct Hsq as (Hlen & Hout).
    destruct (lookup_lt_is_Some_2 (checked s) (out s) ltac:(lia)) as [b Hb].
    destruct (lookup_lt_is_Some_2 (errors s) (out s) ltac:(lia)) as [e He].
    destruct b.
    + destruct (out s =? length headers - 1) eqn:Hlast;
        eexists Emit, _; (split; [discriminate |]); unfold exec;
        rewrite Hq, Hb, He, Hlast; reflexivity.
    + eexists Resume, _. split; [discriminate |]. unfold exec.
      now rewrite Hq, Hb.
Qed.

(** Unless the caller aborts, the goroutines can always run to the end, and
    then all results are out. *)
Lemma completes (s : state) :
  1 <= maxprocs -> length headers <= length seals -> (tmin <= tmax)%Z ->
  inv s -> abort s = false ->
  exists ls s', run ls s = Some s' /\ abort s' = false /\
    seqr s' = SReturned /\ length (errorsOut s') = length headers.
Proof.
  intros Hprocs Hseals Hclock.
  remember (potential s) as n eqn:Hn. revert s Hn.
  induction n as [n IH] using lt_wf_ind. intros s Hn Hinv Hab.
  assert (Hcase : seqr s = SReturned \/ seqr s <> SReturned)
    by (destruct (seqr s); [right | right | left]; congruence).
  destruct Hcase as [Hret | Hrun].
  - exists [], s. simpl. repeat split; try assumption.
    open_inv Hinv. rewrite Hret in Hsq.
    destruct Hsq as [_ [Ha | Hlen]]; congruence.
  - destruct (progress s Hprocs Hseals Hclock Hinv Hrun) as (l & s1 & Hl & Hex).
    destruct (IH (potential s1)) with (s := s1) as (ls & s' & Hrun' & Hres).
    + subst n. eapply exec_potential; eauto.
    + reflexivity.
    + eapply exec_inv; eauto.
    + rewrite (exec_abort _ _ _ Hex Hl). exact Hab.
    + exists (l :: ls), s'. simpl. rewrite Hex. simpl. now split.
Qed.

(** An action sends at most one result, and sends it last. *)
Lemma exec_errorsOut (l : label) (s s' : state) :
  exec l s = Some s' ->
  errorsOut s' = errorsOut s \/
  (l = Emit /\ exists e, errors s !! out s = Some e /\ errorsOut s' = errorsOut s ++ [e]).
Proof.
  intros Hex. destruct l; unfold exec in Hex;
    try (left;
         repeat match type of Hex with
                | match ?x with _ => _ end = Some _ => destruct x; try discriminate Hex
                | (_ ≫= _) = Some _ =>
                    apply bind_Some in Hex; destruct Hex as (? & _ & Hex)
                end;
         injection Hex as <-; reflexivity).
  right. split; [reflexivity |].
  destruct (seqr s); try discriminate.
  destruct (checked s !! out s) as [[|] |]; try discriminate.
  destruct (errors s !! out s) as [e |]; try discriminate.
  exists e. split; [reflexivity |].
  destruct (out s =? length headers - 1); injection Hex as <-; reflexivity.
Qed.

(** Once the sequencer has returned it stays returned and nothing more is
    sent. *)
Lemma exec_returned (l : label) (s s' : state) :
  seqr s = SReturned -> exec l s = Some s' ->
  seqr s' = SReturned /\ errorsOut s' = errorsOut s.
Proof.
  intros Hret Hex. destruct l; unfold exec in Hex; rewrite ?Hret in Hex;
    try discriminate;
    repeat match type of Hex with
           | match ?x with _ => _ end = Some _ => destruct x; try discriminate Hex
           | (_ ≫= _) = Some _ =>
               apply bind_Some in Hex; destruct Hex as (? & _ & Hex)
           end;
    injection Hex as <-; simpl; now split.
Qed.

Lemma run_returned (ls : list label) (s s' : state) :
  seqr s = SReturned -> run ls s = Some s' ->
  seqr s' = SReturned /\ errorsOut s' = errorsOut s.
Proof.
  revert s. induction ls as [| l ls IH]; intros s Hret Hrun; simpl in Hrun.
  - injection Hrun as <-. now split.
  - destruct (exec l s) as [s1 |] eqn:Hex; [| discriminate]. simpl in Hrun.
    destruct (exec_returned _ _ _ Hret Hex) as [Hret1 Hout1].
    destruct (IH s1 Hret1 Hrun) as [Hret' Hout']. split; congruence.
Qed.

(** C2: in every state the goroutines of [VerifyHeaders] can reach, under
    every schedule, the results sent so far are the first slots of the
    result array in index order, at most one per header, and the one at
    position [k] is an outcome of verifying header [k]; an action sends at
    most one result and appends it after those already sent, so position [i]
    is sent only after positions [0..i-1].  Every action uses up potential,
    so every schedule is finite.  When the caller has not aborted, a state in
    which no goroutine can act has all results out, and the goroutines can
    run to such a state.  This holds for every batch length, 0 and 1
    included. *)
Theorem VerifyHeaders_in_order (s : state) :
  reachable s ->
  errorsOut s = take (length (errorsOut s)) (errors s) /\
  length (errorsOut s) <= length headers /\
  (forall k e, errorsOut s !! k = Some e -> outcome_of k e) /\
  (forall l s', exec l s = Some s' ->
     (errorsOut s' = errorsOut s \/ exists e, errorsOut s' = errorsOut s ++ [e]) /\
     potential s' < potential s) /\
  (1 <= maxprocs -> length headers <= length seals -> (tmin <= tmax)%Z ->
   abort s = false ->
     (stuck s ->
        length (errorsOut s) = length headers) /\
     exists ls s', run ls s = Some s' /\ abort s' = false /\
       length (errorsOut s') = length headers).
Proof.
  intros Hreach. pose proof (reachable_inv s Hreach) as Hinv.
  destruct (inv_emitted_outcomes s Hinv) as (Hpre & Hlen & Hout).
  split; [exact Hpre |]. split; [exact Hlen |]. split; [exact Hout |]. split.
  - intros l s' Hex. split; [| now apply (exec_potential l s s')].
    destruct (exec_errorsOut l s s' Hex) as [Hsame | (_ & e & _ & Happ)];
      [now left | right; now exists e].
  - intros Hprocs Hseals Hclock Hab. split.
    + intros Hstuck.
      assert (Hcase : seqr s = SReturned \/ seqr s <> SReturned)
        by (destruct (seqr s); [right | right | left]; congruence).
      destruct Hcase as [Hret | Hrun].
      * clear Hpre Hlen Hout. open_inv Hinv. rewrite Hret in Hsq.
        destruct Hsq as [_ [Ha | Hall]]; congruence.
      * destruct (progress s Hprocs Hseals Hclock Hinv Hrun) as (l & s1 & Hl & Hex).
        elim Hl. now apply (Hstuck l s1).
    + destruct (completes s Hprocs Hseals Hclock Hinv Hab)
        as (ls & s' & Hrun & Hab' & _ & Hall).
      now exists ls, s'.
Qed.

(** Indices none of which occurs twice and all of which lie below [n] are at
    most [n]. *)
Lemma NoDup_below_length (l : list nat) (n : nat) :
  NoDup l -> (forall x, x ∈ l -> x < n) -> length l <= n.
Proof.
  intros Hnd Hlt. rewrite <- (length_seq n 0).
  apply submseteq_length, NoDup_submseteq; [exact Hnd |].
  intros x Hx. apply elem_of_seq. specialize (Hlt x Hx). lia.
Qed.

Lemma is_index_NoDup (l : list nat) :
  (forall i, sum_list_with (is_index i) l <= 1) -> NoDup l.
Proof.
  induction l as [| a l IH]; intros Hsum; constructor.
  - intros Hin. apply sum_is_index_elem in Hin.
    specialize (Hsum a). simpl in Hsum. unfold is_index at 1 in Hsum.
    rewrite Nat.eqb_refl in Hsum. lia.
  - apply IH. intros i. specialize (Hsum i). simpl in Hsum. lia.
Qed.

(** While a worker stands at [done <- index], the channel holds fewer
    indices than have been dispatched: the indices in [done] and the
    worker's own are distinct and all below [in]. *)
Lemma inv_done_room (s : state) (w i : nat) :
  inv s -> workers s !! w = Some (WSend i) -> length (done s) < inp s.
Proof.
  intros Hinv Hw. open_inv Hinv.
  assert (Hone : forall j, sum_list_with (holds j) (workers s)
                           + sum_list_with (is_index j) (done s)
                           <= if j <? inp s then 1 else 0).
  { intros j. specialize (Htk j). unfold tokens in Htk. lia. }
  pose proof (sum_list_with_lookup (holds i) _ _ _ Hw) as Hge.
  simpl in Hge. rewrite Nat.eqb_refl in Hge.
  assert (Hnd : NoDup (i :: done s)).
  { constructor.
    - intros Hmem. apply sum_is_index_elem in Hmem.
      specialize (Hone i). destruct (i <? inp s); lia.
    - apply is_index_NoDup. intros j.
      specialize (Hone j). destruct (j <? inp s); lia. }
  assert (Hlt : forall x, x ∈ i :: done s -> x < inp s).
  { intros x Hmem. specialize (Hone x).
    destruct (Nat.ltb_spec x (inp s)) as [Hok | Hbad]; [exact Hok |].
    apply elem_of_cons in Hmem. destruct Hmem as [-> | Hmem].
    - lia.
    - apply sum_is_index_elem in Hmem. lia. }
  pose proof (NoDup_below_length _ _ Hnd Hlt) as Hlen. simpl in Hlen. lia.
Qed.

(** Once the sequencer has returned while [done] is full, a worker at
    [done <- index] stays there whatever happens next: nothing receives from
    the channel any more. *)
Lemma exec_blocked (l : label) (s s' : state) (w i : nat) :
  seqr s = SReturned -> workers s !! w = Some (WSend i) ->
  nworkers <= length (done s) ->
  exec l s = Some s' ->
  seqr s' = SReturned /\ workers s' !! w = Some (WSend i) /\ done s' = done s.
Proof.
  intros Hret Hw Hfull Hex.
  destruct l as [w' | w' now | w' | | | | | | w']; unfold exec in Hex;
    rewrite ?Hret in Hex; try discriminate.
  - destruct (workers s !! w') as [[| j | |] |] eqn:Hw'; try discriminate.
    destruct ((tmin <=? now)%Z && (now <=? tmax)%Z); try discriminate.
    destruct (verifyHeaderWorker Hash params ethash now chain headers seals j)
      as [r |]; try discriminate.
    simpl in Hex. injection Hex as <-. simpl.
    split; [reflexivity |]. split; [| reflexivity].
    rewrite list_lookup_insert_ne; [exact Hw | congruence].
  - destruct (workers s !! w') as [[| | j |] |]; try discriminate.
    destruct (Nat.ltb_spec (length (done s)) nworkers); [lia | discriminate].
  - destruct (abort s); try discriminate.
    injection Hex as <-. simpl. now split.
  - destruct (workers s !! w') as [[| | |] |] eqn:Hw'; try discriminate.
    injection Hex as <-. simpl.
    split; [reflexivity |]. split; [| reflexivity].
    rewrite list_lookup_insert_ne; [exact Hw | congruence].
Qed.

Lemma run_blocked (ls : list label) (s s' : state) (w i : nat) :
  seqr s = SReturned -> workers s !! w = Some (WSend i) ->
  nworkers <= length (done s) ->
  run ls s = Some s' ->
  seqr s' = SReturned /\ workers s' !! w = Some (WSend i) /\ done s' = done s.
Proof.
  revert s. induction ls as [| l ls IH]; intros s Hret Hw Hfull Hrun; simpl in Hrun.
  - injection Hrun as <-. now split.
  - destruct (exec l s) as [s1 |] eqn:Hex; [| discriminate]. simpl in Hrun.
    destruct (exec_blocked l s s1 w i Hret Hw Hfull Hex) as (Hret1 & Hw1 & Hd1).
    destruct (IH s1 Hret1 Hw1 ltac:(rewrite Hd1; exact Hfull) Hrun)
      as (Hret' & Hw' & Hd').
    split; [exact Hret' |]. split; [exact Hw' | congruence].
Qed.

(** One round of worker 0: it receives index [k], verifies it and reports
    it; the sequencer stays at its select. *)
Lemma run_round (ws : list worker) (k o : nat) (cs : list bool)
    (es : list (option error)) (ds : list nat) (eo : list (option error))
    (ab : bool) (r : option error) :
  (tmin <= tmax)%Z ->
  verifyHeaderWorker Hash params ethash tmin chain headers seals k = Some r ->
  length ds < nworkers ->
  run [Dispatch 0; Compute 0 tmin; Report 0]
      (mkState (WIdle :: ws) SSelect k o false cs es ds eo ab)
  = Some (mkState (WIdle :: ws) SSelect (S k) o (S k =? length headers) cs
                  (<[k := r]> es) (ds ++ [k]) eo ab).
Proof.
  intros Hclock Hr Hroom. simpl.
  rewrite Z.leb_refl, (proj2 (Z.leb_le tmin tmax) Hclock). simpl.
  rewrite Hr. simpl.
  rewrite (proj2 (Nat.ltb_lt _ _) Hroom). reflexivity.
Qed.

(** Worker 0 receives and verifies index [k], then the caller raises the
    abort signal and the sequencer takes it. *)
Lemma run_abort_round (ws : list worker) (k o : nat) (cs : list bool)
    (es : list (option error)) (ds : list nat) (eo : list (option error))
    (r : option error) :
  (tmin <= tmax)%Z ->
  verifyHeaderWorker Hash params ethash tmin chain headers seals k = Some r ->
  run [Dispatch 0; Compute 0 tmin; RaiseAbort; Abort]
      (mkState (WIdle :: ws) SSelect k o false cs es ds eo false)
  = Some (mkState (WSend k :: ws) SReturned (S k) o (S k =? length headers) cs
                  (<[k := r]> es) ds eo true).
Proof.
  intros Hclock Hr. simpl.
  rewrite Z.leb_refl, (proj2 (Z.leb_le tmin tmax) Hclock). simpl.
  rewrite Hr. reflexivity.
Qed.

(** After [k] rounds of worker 0, with the sequencer still at its select,
    [done] holds the indices [0..k-1]. *)
Lemma scheduleFill_runs (k : nat) :
  length headers <= length seals -> (tmin <= tmax)%Z ->
  k <= nworkers -> nworkers < length headers ->
  exists es,
    run (scheduleFill k tmin) initial
    = Some (mkState (replicate nworkers WIdle) SSelect k 0 false
                    (replicate (length headers) false) es (seq 0 k) [] false).
Proof.
  intros Hseals Hclock Hk Hlt. induction k as [| k IH].
  - exists (replicate (length headers) None). simpl. unfold VerifyHeaders.
    destruct (Nat.eqb_spec (length headers) 0); [lia | reflexivity].
  - destruct IH as [es Hes]; [lia |].
    destruct (verifyHeaderWorker_total tmin k Hseals ltac:(lia)) as [r Hr].
    exists (<[k := r]> es).
    change (scheduleFill (S k) tmin)
      with (scheduleFill k tmin ++ [Dispatch 0; Compute 0 tmin; Report 0]).
    rewrite (run_app_Some _ _ _ _ Hes).
    destruct nworkers as [| m] eqn:Hn; [lia |].
    change (replicate (S m) WIdle) with (WIdle :: replicate m WIdle).
    rewrite (run_round _ k 0 _ es (seq 0 k) [] false r Hclock Hr).
    + rewrite seq_S.
      rewrite (proj2 (Nat.eqb_neq (S k) (length headers)) ltac:(lia)). reflexivity.
    + rewrite length_seq. lia.
Qed.

(** C7: the caller's abort can leave a worker behind for good, and does so
    in every batch with more headers than worker goroutines.  With
    GOMAXPROCS at least 1 and a seal flag per header: when the batch is
    longer than GOMAXPROCS there is a schedule in which the abort signal is
    raised and taken, no result has been sent, the [done] channel is full and
    worker 0 stands at [done <- index]; from then on, whatever any goroutine
    does, no result is sent, that worker still stands there and its send
    cannot proceed, so it never leaves its loop.  The capacity of [done] is the number of workers,
    and that is enough exactly when no worker takes a second index: when the
    batch is no longer than GOMAXPROCS, a worker at [done <- index] can
    always send, and once no goroutine can act every worker has left. *)
Theorem VerifyHeaders_abort_worker_leak :
  1 <= maxprocs -> length headers <= length seals -> (tmin <= tmax)%Z ->
  (maxprocs < length headers ->
   exists s,
     run (scheduleAbortBlocked maxprocs tmin) initial = Some s /\
     abort s = true /\ seqr s = SReturned /\ errorsOut s = [] /\
     workers s !! 0 = Some (WSend maxprocs) /\
     length (done s) = nworkers /\
     forall ls s', run ls s = Some s' ->
       errorsOut s' = [] /\
       workers s' !! 0 = Some (WSend maxprocs) /\
       exec (Report 0) s' = None /\ exec (Leave 0) s' = None) /\
  (length headers <= maxprocs ->
   forall s, reachable s ->
     (forall w i, workers s !! w = Some (WSend i) ->
        exists s', exec (Report w) s = Some s') /\
     (stuck s -> Forall (fun x => x = WExit) (workers s))).
Proof.
  intros Hprocs Hseals Hclock. split.
  - intros Hlong.
    assert (Hn : nworkers = maxprocs).
    { unfold nworkers. destruct (Nat.ltb_spec (length headers) maxprocs); [lia | reflexivity]. }
    destruct (scheduleFill_runs maxprocs Hseals Hclock ltac:(lia) ltac:(lia)) as [es Hes].
    destruct (verifyHeaderWorker_total tmin maxprocs Hseals Hlong) as [r Hr].
    exists (mkState (WSend maxprocs :: replicate (maxprocs - 1) WIdle) SReturned
                    (S maxprocs) 0 (S maxprocs =? length headers)
                    (replicate (length headers) false) (<[maxprocs := r]> es)
                    (seq 0 maxprocs) [] true).
    split.
    { unfold scheduleAbortBlocked. rewrite (run_app_Some _ _ _ _ Hes).
      rewrite Hn, (replicate_pos maxprocs WIdle Hprocs).
      apply (run_abort_round _ maxprocs 0 _ es _ [] r Hclock Hr). }
    simpl. split; [reflexivity |]. split; [reflexivity |]. split; [reflexivity |].
    split; [reflexivity |]. split; [rewrite length_seq; now rewrite Hn |].
    intros ls s' Hrun.
    pose proof Hrun as Hout'.
    apply run_returned in Hout'; [| reflexivity].
    destruct Hout' as [_ Hout']. simpl in Hout'.
    apply run_blocked with (w := 0) (i := maxprocs) in Hrun;
      [| reflexivity | reflexivity | simpl; rewrite length_seq; lia].
    destruct Hrun as (Hret' & Hw' & Hd').
    split; [exact Hout' |]. split; [exact Hw' |]. split.
    + unfold exec. rewrite Hw', Hd'. simpl. rewrite length_seq.
      destruct (Nat.ltb_spec maxprocs nworkers); [lia | reflexivity].
    + unfold exec. now rewrite Hret', Hw'.
  - intros Hshort s Hreach. pose proof (reachable_inv s Hreach) as Hinv.
    assert (Hn : nworkers = length headers).
    { unfold nworkers. destruct (Nat.ltb_spec (length headers) maxprocs); lia. }
    assert (Hsend : forall w i, workers s !! w = Some (WSend i) ->
                                exists s', exec (Report w) s = Some s').
    { intros w i Hw. pose proof (inv_done_room s w i Hinv Hw) as Hroom.
      pose proof (proj2 (inv_inputs _ _ _ _ _ _ _ _ _ _ Hinv)) as Hle.
      unfold exec. rewrite Hw.
      destruct (Nat.ltb_spec (length (done s)) nworkers); [eauto | lia]. }
    split; [exact Hsend |]. intros Hstuck.
    assert (Hret : seqr s = SReturned).
    { destruct (seqr s) eqn:Hq; [| | reflexivity];
        (destruct (progress s Hprocs Hseals Hclock Hinv) as (l & s' & Hl & Hex);
         [rewrite Hq; discriminate |]; elim Hl; now apply (Hstuck l s')). }
    apply Forall_lookup. intros w x Hw.
    destruct x as [| i | i |]; [| | | reflexivity]; exfalso.
    + assert (Hex : exec (Leave w) s
                    = Some (mkState (<[w := WExit]> (workers s)) SReturned (inp s) (out s)
                              (inputs_nil s) (checked s) (errors s) (done s)
                              (errorsOut s) (abort s))).
      { unfold exec. now rewrite Hret, Hw. }
      specialize (Hstuck _ _ Hex). discriminate.
    + assert (Hi : i < length headers).
      { open_inv Hinv. destruct Hin as [_ Hle].
        specialize (Htk i). unfold tokens in Htk.
        pose proof (sum_list_with_lookup (holds i) _ _ _ Hw) as Hge. simpl in Hge.
        rewrite Nat.eqb_refl in Hge.
        destruct (Nat.ltb_spec i (inp s)); lia. }
      destruct (verifyHeaderWorker_total tmin i Hseals Hi) as [r Hr].
      assert (Hex : exec (Compute w tmin) s
                    = Some (mkState (<[w := WSend i]> (workers s)) (seqr s) (inp s)
                              (out s) (inputs_nil s) (checked s) (<[i := r]> (errors s))
                              (done s) (errorsOut s) (abort s))).
      { unfold exec. rewrite Hw.
        rewrite (proj2 (Z.leb_le tmin tmin) ltac:(lia)).
        rewrite (proj2 (Z.leb_le tmin tmax) Hclock). simpl. now rewrite Hr. }
      specialize (Hstuck _ _ Hex). discriminate.
    + destruct (Hsend w i Hw) as [s' Hex].
      specialize (Hstuck _ _ Hex). discriminate.
Qed.

Lemma prefix_of_expected {A : Type} (l expected : list A) :
  length l <= length expected ->
  (forall k e, l !! k = Some e -> expected !! k = Some e) ->
  l = take (length l) expected.
Proof.
  intros Hlen Hl. apply list_eq. intros i.
  destruct (Nat.lt_ge_cases i (length l)) as [Hlt | Hge].
  - rewrite lookup_take_lt by exact Hlt.
    destruct (lookup_lt_is_Some_2 l i Hlt) as [e He].
    rewrite He. symmetry. now apply Hl.
  - rewrite lookup_take_ge by exact Hge. now apply lookup_ge_None_2.
Qed.

(** C3 (amended): for a batch [h0; h1; h2] where h0 passes against its
    parent known to the chain, h1 links to h0, is not already known and
    fails the gas-limit-delta check, and h2, if it links to h1 and is not
    already known, passes its own checks against h1, the results under every
    schedule are a prefix of [ok; gas-limit error; r2] with r2 = ok when h2
    links to h1 and r2 = ErrUnknownAncestor otherwise; the gas-limit error
    is a HeaderRuleViolation; unless the caller aborts, a state where no
    goroutine can act holds exactly these three results, and such a state
    can be reached. *)
Theorem VerifyHeaders_three (h0 h1 h2 p : Header) (s0 s1 s2 : bool) :
  let e1 := errGasLimitBound (GasLimit h1) (GasLimit h0)
                             (GasLimit h0 / GasLimitBoundDivisor params)%Z in
  let expected := [None; Some e1;
                   if (Hash h1 =? ParentHash h2)%Z then None
                   else Some ErrUnknownAncestor] in
  headers = [h0; h1; h2] -> seals = [s0; s1; s2] ->
  1 <= maxprocs -> (tmin <= tmax)%Z ->
  GetHeader chain (ParentHash h0) (wrap_u64 (Uint64 (Number h0) - 1)) = Some p ->
  (forall now, (tmin <= now <= tmax)%Z ->
     verifyHeader params ethash now chain h0 p s0 = None) ->
  Hash h0 = ParentHash h1 ->
  GetHeader chain (Hash h1) (Uint64 (Number h1)) = None ->
  (forall now, (tmin <= now <= tmax)%Z ->
     verifyHeader params ethash now chain h1 h0 s1 = Some e1) ->
  (Hash h1 = ParentHash h2 ->
   GetHeader chain (Hash h2) (Uint64 (Number h2)) = None ->
   forall now, (tmin <= now <= tmax)%Z ->
     verifyHeader params ethash now chain h2 h1 s2 = None) ->
  kindOf e1 = HeaderRuleViolation /\
  (forall s, reachable s ->
     errorsOut s = take (length (errorsOut s)) expected /\
     (abort s = false ->
      stuck s ->
      errorsOut s = expected)) /\
  (exists ls s, run ls initial = Some s /\ errorsOut s = expected).
Proof.
  intros e1 expected Hhs Hss Hprocs Hclock Hp H0 Hlink1 Hnew1 H1 H2.
  assert (Hexp : forall k e, outcome_of k e -> expected !! k = Some e).
  { intros k e (now & Hnow & Hr). unfold verifyHeaderWorker in Hr.
    rewrite Hhs, Hss in Hr. subst expected.
    destruct k as [| [| [| k]]]; simpl in Hr.
    - rewrite Hp in Hr.
      destruct (GetHeader chain (Hash h0) _); simpl in Hr.
      + now injection Hr as <-.
      + rewrite (H0 now Hnow) in Hr. now injection Hr as <-.
    - rewrite Hlink1, Z.eqb_refl, Hnew1 in Hr. simpl in Hr.
      rewrite (H1 now Hnow) in Hr. now injection Hr as <-.
    - simpl. destruct (Z.eqb_spec (Hash h1) (ParentHash h2)) as [Heq | Hne].
      + destruct (GetHeader chain (Hash h2) _) eqn:Hk2; simpl in Hr.
        * now injection Hr as <-.
        * rewrite (H2 Heq eq_refl now Hnow) in Hr. now injection Hr as <-.
      + now injection Hr as <-.
    - discriminate. }
  assert (Hlen3 : length headers = 3) by now rewrite Hhs.
  assert (Hseals : length headers <= length seals) by now rewrite Hhs, Hss.
  assert (Hall : forall s, inv s -> length (errorsOut s) = length headers ->
                           errorsOut s = expected).
  { intros s Hinv Hlen.
    destruct (inv_emitted_outcomes s Hinv) as (_ & Hle & Hout).
    etransitivity; [apply (prefix_of_expected (errorsOut s) expected) |].
    - now rewrite Hlen, Hlen3.
    - intros k e Hk. apply Hexp. now apply Hout.
    - rewrite Hlen, Hlen3. reflexivity. }
  split; [reflexivity |]. split.
  - intros s Hreach. pose proof (reachable_inv s Hreach) as Hinv.
    destruct (inv_emitted_outcomes s Hinv) as (_ & Hle & Hout). split.
    + apply prefix_of_expected.
      * change (length (errorsOut s) <= 3). lia.
      * intros k e Hk. apply Hexp. now apply Hout.
    + intros Hab Hstuck. apply Hall; [exact Hinv |].
      assert (Hcase : seqr s = SReturned \/ seqr s <> SReturned)
        by (destruct (seqr s); [right | right | left]; congruence).
      destruct Hcase as [Hret | Hrun].
      * clear Hle Hout. open_inv Hinv. rewrite Hret in Hsq.
        destruct Hsq as [_ [Ha | Hfull]]; congruence.
      * destruct (progress s Hprocs Hseals Hclock Hinv Hrun) as (l & s' & Hl & Hex).
        elim Hl. now apply (Hstuck l s').
  - destruct (completes initial Hprocs Hseals Hclock inv_initial)
      as (ls & s & Hrun & _ & _ & Hfull).
    + unfold VerifyHeaders. now destruct (length headers =? 0).
    + exists ls, s. split; [exact Hrun |].
      apply Hall; [| exact Hfull].
      eapply run_inv; [apply inv_initial | exact Hrun].
Qed.

Lemma sum_list_with_lookup2 {A : Type} (f : A -> nat) (l : list A) (i j : nat) (x y : A) :
  i <> j -> l !! i = Some x -> l !! j = Some y -> f x + f y <= sum_list_with f l.
Proof.
  revert i j. induction l as [| a l IH]; intros i j Hne Hi Hj; [discriminate |].
  destruct i as [| i], j as [| j]; simpl in *; try lia.
  - injection Hi as ->. pose proof (sum_list_with_lookup f l j y Hj). lia.
  - injection Hj as ->. pose proof (sum_list_with_lookup f l i x Hi). lia.
  - assert (Hne' : i <> j) by lia. specialize (IH i j Hne' Hi Hj). lia.
Qed.

Lemma holds_held (x : worker) (i : nat) : held x = Some i -> holds i x = 1.
Proof.
  destruct x as [| j | j |]; simpl; try discriminate;
    intros [= ->]; now rewrite Nat.eqb_refl.
Qed.

(** No two goroutines touch the same result slot at the same time: an index
    a worker holds has been dispatched, is held by no other worker, is not
    in the [done] channel, is not marked checked, and lies beyond the
    results already sent, so the sequencer never reads a slot a worker may
    still write. *)
Theorem VerifyHeaders_slot_exclusive (s : state) (w i : nat) (x : worker) :
  reachable s ->
  workers s !! w = Some x -> held x = Some i ->
  i < inp s /\ inp s <= length headers /\
  checked s !! i <> Some true /\
  (i ∉ done s) /\
  length (errorsOut s) <= i /\
  (forall w' x', w' <> w -> workers s !! w' = Some x' -> held x' <> Some i).
Proof.
  intros Hreach Hw Hheld. pose proof (reachable_inv s Hreach) as Hinv.
  open_inv Hinv. destruct Hin as [_ Hle].
  pose proof (Htk i) as Hi. unfold tokens in Hi.
  pose proof (sum_list_with_lookup (holds i) _ _ _ Hw) as Hge.
  rewrite (holds_held x i Hheld) in Hge.
  assert (Hlt : i < inp s) by (destruct (Nat.ltb_spec i (inp s)); lia).
  rewrite (proj2 (Nat.ltb_lt i (inp s)) Hlt) in Hi.
  assert (Hck' : checked s !! i <> Some true).
  { intros Hc. rewrite Hc in Hi. lia. }
  split; [exact Hlt |]. split; [exact Hle |]. split; [exact Hck' |]. split; [| split].
  - intros Hin. apply sum_is_index_elem in Hin. lia.
  - destruct (Nat.le_gt_cases (length (errorsOut s)) i) as [Hok | Hbad]; [exact Hok |].
    elim Hck'. now apply Hem.
  - intros w' x' Hne Hw' Hheld'.
    pose proof (sum_list_with_lookup2 (holds i) _ _ _ _ _ Hne Hw' Hw) as H2.
    rewrite (holds_held x i Hheld), (holds_held x' i Hheld') in H2. lia.
Qed.

Lemma run_potential (ls : list label) (s s' : state) :
  inv s -> run ls s = Some s' -> length ls + potential s' <= potential s.
Proof.
  revert s. induction ls as [| l ls IH]; intros s Hinv Hrun; simpl in Hrun.
  - injection Hrun as <-. simpl. lia.
  - destruct (exec l s) as [s1 |] eqn:Hex; [| discriminate]. simpl in Hrun.
    pose proof (exec_potential l s s1 Hinv Hex) as Hlt.
    pose proof (IH s1 (exec_inv l s s1 Hinv Hex) Hrun) as Hrest.
    simpl. lia.
Qed.

(** Every schedule is short: whatever the goroutines and the caller do, at
    most 6 actions per header, one per worker and two more can happen, so
    the batch always comes to rest. *)
Theorem VerifyHeaders_schedule_bound (ls : list label) (s : state) :
  run ls initial = Some s ->
  length ls <= 6 * length headers + nworkers + 2.
Proof.
  intros Hrun.
  pose proof (run_potential ls initial s inv_initial Hrun) as Hle.
  assert (Hinit : potential initial <= 6 * length headers + nworkers + 2).
  { unfold potential, VerifyHeaders.
    destruct (length headers =? 0); simpl.
    - lia.
    - rewrite sum_list_with_replicate. simpl. lia. }
  lia.
Qed.

(** Without an abort no goroutine is left behind: once nothing can act any
    more, every result is out, the [done] channel is empty and every worker
    has left its loop. *)
Theorem VerifyHeaders_clean_exit (s : state) :
  1 <= maxprocs -> length headers <= length seals -> (tmin <= tmax)%Z ->
  reachable s -> abort s = false -> stuck s ->
  length (errorsOut s) = length headers /\
  done s = [] /\
  Forall (fun x => x = WExit) (workers s).
Proof.
  intros Hprocs Hseals Hclock Hreach Hab Hstuck.
  pose proof (reachable_inv s Hreach) as Hinv.
  assert (Hret : seqr s = SReturned).
  { destruct (seqr s) eqn:Hq; [| | reflexivity].
    - destruct (progress s Hprocs Hseals Hclock Hinv) as (l & s' & Hl & Hex);
        [rewrite Hq; discriminate |].
      elim Hl. now apply (Hstuck l s').
    - destruct (progress s Hprocs Hseals Hclock Hinv) as (l & s' & Hl & Hex);
        [rewrite Hq; discriminate |].
      elim Hl. now apply (Hstuck l s'). }
  open_inv Hinv. rewrite Hret in Hsq. destruct Hin as [_ Hle].
  assert (Hall : length (errorsOut s) = length headers)
    by (destruct Hsq as [_ [Ha | Hfull]]; congruence).
  assert (Hnone : forall i, sum_list_with (holds i) (workers s)
                            + sum_list_with (is_index i) (done s) = 0).
  { intros i. pose proof (Htk i) as Hi. unfold tokens in Hi.
    destruct (Nat.ltb_spec i (inp s)) as [Hlt | Hge].
    - rewrite (Hem i ltac:(lia)) in Hi. lia.
    - lia. }
  split; [exact Hall |]. split.
  - destruct (done s) as [| i rest] eqn:Hd; [reflexivity |].
    specialize (Hnone i). simpl in Hnone.
    unfold is_index at 1 in Hnone. rewrite Nat.eqb_refl in Hnone. lia.
  - apply Forall_lookup. intros w x Hw.
    destruct x as [| i | i |]; [| | | reflexivity].
    + exfalso.
      assert (Hex : exec (Leave w) s
                    = Some (mkState (<[w := WExit]> (workers s)) SReturned (inp s) (out s)
                              (inputs_nil s) (checked s) (errors s) (done s)
                              (errorsOut s) (abort s))).
      { unfold exec. now rewrite Hret, Hw. }
      specialize (Hstuck _ _ Hex). discriminate.
    + exfalso. specialize (Hnone i).
      pose proof (sum_list_with_lookup (holds i) _ _ _ Hw) as Hge.
      simpl in Hge. rewrite Nat.eqb_refl in Hge. lia.
    + exfalso. specialize (Hnone i).
      pose proof (sum_list_with_lookup (holds i) _ _ _ Hw) as Hge.
      simpl in Hge. rewrite Nat.eqb_refl in Hge. lia.
Qed.

Lemma worker_ok_link now (j : nat) (p h : Header) :
  headers !! j = Some p -> headers !! S j = Some h ->
  GetHeader chain (Hash h) (Uint64 (Number h)) = None ->
  verifyHeaderWorker Hash params ethash now chain headers seals (S j) = Some None ->
  Hash p = ParentHash h /\
  exists seal, verifyHeader params ethash now chain h p seal = None.
Proof.
  intros Hp Hh Hnew. unfold verifyHeaderWorker. rewrite Hh, Hp. simpl.
  destruct (Z.eqb_spec (Hash p) (ParentHash h)) as [Heq | Hne]; [| discriminate].
  rewrite Hnew. destruct (seals !! S j) as [seal |]; simpl; [| discriminate].
  intros [= Hv]. split; [exact Heq | now exists seal].
Qed.

(** When a batch none of whose headers the chain already knows comes back
    with every result ok, the batch is a chain: each header names the hash
    of its predecessor as parent, has the predecessor's number plus one, a
    later timestamp and a gas limit within the bounds, so the k-th header
    has the number of the first plus k and a timestamp at least k above
    it. *)
Theorem VerifyHeaders_all_ok_chain (s : state) :
  reachable s ->
  errorsOut s = replicate (length headers) None ->
  (forall k h, headers !! k = Some h ->
     GetHeader chain (Hash h) (Uint64 (Number h)) = None) ->
  (forall j p h, headers !! j = Some p -> headers !! S j = Some h ->
     Hash p = ParentHash h /\ Number h = (Number p + 1)%Z /\
     (Time p < Time h)%Z /\
     (GasUsed h <= GasLimit h <= 2 ^ 63 - 1)%Z /\
     (MinGasLimit params <= GasLimit h)%Z /\
     (gasLimitDiff h p < GasLimit p / GasLimitBoundDivisor params)%Z) /\
  (forall k h0 h, headers !! 0 = Some h0 -> headers !! k = Some h ->
     Number h = (Number h0 + Z.of_nat k)%Z /\
     (Time h0 + Z.of_nat k <= Time h)%Z).
Proof.
  intros Hreach Hok Hnew. pose proof (reachable_inv s Hreach) as Hinv.
  destruct (inv_emitted_outcomes s Hinv) as (_ & _ & Hout).
  assert (Hlinks : forall j p h, headers !! j = Some p -> headers !! S j = Some h ->
     Hash p = ParentHash h /\ Number h = (Number p + 1)%Z /\
     (Time p < Time h)%Z /\
     (GasUsed h <= GasLimit h <= 2 ^ 63 - 1)%Z /\
     (MinGasLimit params <= GasLimit h)%Z /\
     (gasLimitDiff h p < GasLimit p / GasLimitBoundDivisor params)%Z).
  { intros j p h Hp Hh.
    assert (Hk : errorsOut s !! S j = Some None).
    { rewrite Hok. apply lookup_replicate. split; [reflexivity |].
      now apply lookup_lt_Some in Hh. }
    destruct (Hout _ _ Hk) as (now & _ & Hw).
    destruct (worker_ok_link now j p h Hp Hh (Hnew _ _ Hh) Hw) as (Hlink & seal & Hv).
    apply verifyHeader_None_iff in Hv.
    destruct Hv as (_ & _ & Ht & Hcap & Hused & Hdiff & Hmin & Hnum & _).
    repeat split; assumption || lia. }
  split; [exact Hlinks |].
  intros k. induction k as [| k IH]; intros h0 h H0 Hh.
  - rewrite H0 in Hh. injection Hh as <-. simpl. lia.
  - destruct (lookup_lt_is_Some_2 headers k) as [p Hp].
    { apply lookup_lt_Some in Hh. lia. }
    destruct (IH h0 p H0 Hp) as [Hn Ht].
    destruct (Hlinks k p h Hp Hh) as (_ & Hnum & Htime & _).
    rewrite Nat2Z.inj_succ. lia.
Qed.

End BatchProperties.

(** ** Batch verification on the example data *)

Lemma VerifyHeaders_in_order_witness :
  exists s,
    exampleRun [block1; block2] [true; true] 2 scheduleSecondFirst
               (VerifyHeaders [block1; block2] 2) = Some s
    /\ errorsOut s = [None; None]
    /\ errorsOut s = take (length (errorsOut s)) (errors s).
Proof.
  eexists. split; [vm_compute; reflexivity |]. split; [reflexivity |].
  apply (VerifyHeaders_in_order exampleHash defaultParams exampleEngine
           (chainOf [genesis]) [block1; block2] [true; true] 2 2000 2001).
  exists scheduleSecondFirst. vm_compute. reflexivity.
Defined.

(** An empty batch starts no goroutine and never yields a result. *)
Example VerifyHeaders_empty (maxprocs : nat) :
  VerifyHeaders [] maxprocs = mkState [] SReturned 0 0 true [] [] [] [] false.
Proof. reflexivity. Qed.

Lemma in_example_clock (now : Z) :
  (2000 <= now <= 2001)%Z -> now = 2000%Z \/ now = 2001%Z.
Proof. lia. Qed.

Lemma VerifyHeaders_three_witness :
  exists ls s,
    exampleRun [block1; block2_gas; block3_on_gas] [true; true; true] 2 ls
               (VerifyHeaders [block1; block2_gas; block3_on_gas] 2) = Some s
    /\ errorsOut s = [None; Some (errGasLimitBound 2000000 1000000 976); None].
Proof.
  apply (VerifyHeaders_three exampleHash defaultParams exampleEngine
           (chainOf [genesis]) [block1; block2_gas; block3_on_gas]
           [true; true; true] 2 2000 2001
           block1 block2_gas block3_on_gas genesis true true true);
    try reflexivity; try lia.
  - intros now Hnow. destruct (in_example_clock now Hnow) as [-> | ->]; reflexivity.
  - intros now Hnow. destruct (in_example_clock now Hnow) as [-> | ->]; reflexivity.
  - intros _ _ now Hnow. destruct (in_example_clock now Hnow) as [-> | ->]; reflexivity.
Defined.

(** C3 as stated fails: the first header passes against a known parent, the
    second fails the gas-limit-delta check, and the third result is the
    third header's own rule violation (its timestamp is not above its
    parent's), neither success nor an unknown ancestor. *)
Lemma VerifyHeaders_three_counterexample :
  GetHeader (chainOf [genesis]) (ParentHash block1)
            (wrap_u64 (Uint64 (Number block1) - 1)) = Some genesis
  /\ verifyHeader defaultParams exampleEngine 2000 (chainOf [genesis]) block1 genesis true
     = None
  /\ verifyHeader defaultParams exampleEngine 2000 (chainOf [genesis]) block2_gas block1 true
     = Some (errGasLimitBound 2000000 1000000 976)
  /\ exists s,
       exampleRun [block1; block2_gas; block3_late] [true; true; true] 2
                  scheduleThirdFirst
                  (VerifyHeaders [block1; block2_gas; block3_late] 2) = Some s
       /\ errorsOut s = [None; Some (errGasLimitBound 2000000 1000000 976);
                         Some errZeroBlockTime].
Proof.
  split; [reflexivity |]. split; [reflexivity |]. split; [reflexivity |].
  eexists. split; [vm_compute; reflexivity | reflexivity].
Qed.

(** By the design of [select], raising the abort signal does not stop the
    sequencer at once: a report that arrives while the signal is up may be
    taken first, and its result is sent. *)
Example VerifyHeaders_result_after_raise :
  exists s1 s2,
    exampleRun [block1] [true] 1 [Dispatch 0; RaiseAbort]
               (VerifyHeaders [block1] 1) = Some s1
    /\ abort s1 = true /\ errorsOut s1 = []
    /\ exampleRun [block1] [true] 1 scheduleRaiseThenEmit s1 = Some s2
    /\ errorsOut s2 = [None].
Proof.
  eexists. eexists.
  split; [vm_compute; reflexivity |].
  split; [reflexivity |]. split; [reflexivity |].
  split; [vm_compute; reflexivity | reflexivity].
Qed.

(** Two headers on one worker goroutine: the schedule of the theorem is
    [scheduleAbortFull], and it leaves the worker at [done <- 1] with the
    channel full, unable to send or to leave in any continuation, and no
    result is ever sent. *)
Lemma VerifyHeaders_abort_worker_leak_witness :
  scheduleAbortBlocked 1 2000 = scheduleAbortFull
  /\ exists s,
       exampleRun [block1; block2] [true; true] 1 (scheduleAbortBlocked 1 2000)
                  (VerifyHeaders [block1; block2] 1) = Some s
       /\ abort s = true /\ seqr s = SReturned /\ errorsOut s = []
       /\ workers s !! 0%nat = Some (WSend 1)
       /\ forall ls s', exampleRun [block1; block2] [true; true] 1 ls s = Some s' ->
            errorsOut s' = []
            /\ workers s' !! 0%nat = Some (WSend 1)
            /\ exampleExec [block1; block2] [true; true] 1 (Report 0) s' = None
            /\ exampleExec [block1; block2] [true; true] 1 (Leave 0) s' = None.
Proof.
  split; [reflexivity |].
  destruct (proj1 (VerifyHeaders_abort_worker_leak exampleHash defaultParams exampleEngine
                     (chainOf [genesis]) [block1; block2] [true; true] 1 2000 2001
                     ltac:(lia) ltac:(simpl; lia) ltac:(lia))
                  ltac:(simpl; lia))
    as (s & Hrun & Hab & Hret & Hout & Hw & _ & Hever).
  exists s. split; [exact Hrun |]. split; [exact Hab |]. split; [exact Hret |].
  split; [exact Hout |]. split; [exact Hw | exact Hever].
Defined.

(** A state in which no action at all is possible stays as it is. *)
Lemma run_dead (headers : list Header) (seals : list bool) (maxprocs : nat)
    (s : state) :
  (forall l, exampleExec headers seals maxprocs l s = None) ->
  forall ls s', exampleRun headers seals maxprocs ls s = Some s' -> s' = s.
Proof.
  intros Hdead ls s' Hrun. destruct ls as [| l ls]; simpl in Hrun.
  - now injection Hrun as <-.
  - unfold exampleRun in Hrun. simpl in Hrun.
    unfold exampleExec in Hdead. rewrite (Hdead l) in Hrun. discriminate.
Qed.

Lemma scheduleAbortFull_runs :
  exampleRun [block1; block2] [true; true] 1 scheduleAbortFull
             (VerifyHeaders [block1; block2] 1) = Some stateAbortFull.
Proof. vm_compute. reflexivity. Qed.

Lemma stateAbortFull_dead (l : label) :
  exampleExec [block1; block2] [true; true] 1 l stateAbortFull = None.
Proof.
  destruct l as [w | w now | w | | | | | | w];
    try reflexivity; destruct w as [| w]; reflexivity.
Qed.

(** With two headers and one worker goroutine there is a schedule after
    which the sequencer has returned on the abort signal, the [done] channel
    is full, and the worker is blocked at [done <- index] for good: no
    action of any goroutine is possible, so the worker never leaves its
    loop. *)
Theorem VerifyHeaders_worker_blocked :
  exampleRun [block1; block2] [true; true] 1 scheduleAbortFull
             (VerifyHeaders [block1; block2] 1) = Some stateAbortFull
  /\ seqr stateAbortFull = SReturned
  /\ workers stateAbortFull !! 0%nat = Some (WSend 1)
  /\ length (done stateAbortFull) = nworkers [block1; block2] 1
  /\ (forall l, exampleExec [block1; block2] [true; true] 1 l stateAbortFull = None)
  /\ (forall ls s', exampleRun [block1; block2] [true; true] 1 ls stateAbortFull = Some s' ->
                    s' = stateAbortFull).
Proof.
  split; [apply scheduleAbortFull_runs |].
  do 3 (split; [reflexivity |]).
  split; [apply stateAbortFull_dead |].
  intros ls s'. apply run_dead, stateAbortFull_dead.
Qed.

(** ** The further batch properties on the example data *)

Local Close Scope Z_scope.

(** Both headers dispatched, none verified yet. *)
Definition stateBothBusy : state :=
  mkState [WBusy 0; WBusy 1] SSelect 2 0 true [false; false] [None; None] [] [] false.

(** All results out and both workers gone. *)
Definition stateAllDone : state :=
  mkState [WExit; WExit] SReturned 2 1 true [true; true] [None; None] []
          [None; None] false.

Lemma VerifyHeaders_slot_exclusive_witness :
  checked stateBothBusy !! 0 <> Some true /\ (0 ∉ done stateBothBusy).
Proof.
  destruct (VerifyHeaders_slot_exclusive exampleHash defaultParams exampleEngine
              (chainOf [genesis]) [block1; block2] [true; true] 2 2000%Z 2001%Z
              stateBothBusy 0 0 (WBusy 0))
    as (_ & _ & Hc & Hd & _).
  - exists [Dispatch 0; Dispatch 1]. vm_compute. reflexivity.
  - reflexivity.
  - reflexivity.
  - now split.
Defined.

Lemma VerifyHeaders_schedule_bound_witness :
  length scheduleSecondFirst <= 6 * 2 + nworkers [block1; block2] 2 + 2.
Proof.
  apply (VerifyHeaders_schedule_bound exampleHash defaultParams exampleEngine
           (chainOf [genesis]) [block1; block2] [true; true] 2 2000%Z 2001%Z
           scheduleSecondFirst
           (mkState [WIdle; WIdle] SReturned 2 1 true [true; true] [None; None] []
                    [None; None] false)).
  vm_compute. reflexivity.
Defined.

Lemma stateAllDone_stuck :
  stuck exampleHash defaultParams exampleEngine (chainOf [genesis])
        [block1; block2] [true; true] 2 2000%Z 2001%Z stateAllDone.
Proof.
  intros l s' Hex.
  destruct l as [w | w now | w | | | | | | w]; try reflexivity; try discriminate;
    destruct w as [| [| w]]; discriminate.
Qed.

Lemma VerifyHeaders_clean_exit_witness :
  Forall (fun x => x = WExit) (workers stateAllDone) /\ done stateAllDone = [].
Proof.
  destruct (VerifyHeaders_clean_exit exampleHash defaultParams exampleEngine
              (chainOf [genesis]) [block1; block2] [true; true] 2 2000%Z 2001%Z
              stateAllDone)
    as (_ & Hd & Hw).
  - lia.
  - reflexivity.
  - lia.
  - exists (scheduleSecondFirst ++ [Leave 0; Leave 1]). vm_compute. reflexivity.
  - reflexivity.
  - apply stateAllDone_stuck.
  - now split.
Defined.

Lemma VerifyHeaders_all_ok_chain_witness :
  exampleHash block1 = ParentHash block2 /\ Number block2 = (Number block1 + 1)%Z.
Proof.
  destruct (VerifyHeaders_all_ok_chain exampleHash defaultParams exampleEngine
              (chainOf [genesis]) [block1; block2] [true; true] 2 2000%Z 2001%Z
              stateAllDone)
    as [Hlinks _].
  - exists (scheduleSecondFirst ++ [Leave 0; Leave 1]). vm_compute. reflexivity.
  - reflexivity.
  - intros k h Hk. destruct k as [| [| k]]; simpl in Hk; try discriminate;
      injection Hk as <-; reflexivity.
  - destruct (Hlinks 0 block1 block2 eq_refl eq_refl) as (Hl & Hn & _).
    now split.
Defined.

Local Open Scope Z_scope.

(** ** Further properties of header verification *)

Lemma wrap_i64_cases (z : Z) :
  - 2 ^ 64 <= z < 2 ^ 64 ->
  wrap_i64 z = if z <? - 2 ^ 63 then z + 2 ^ 64
               else if z <? 2 ^ 63 then z else z - 2 ^ 64.
Proof.
  intros Hz. unfold wrap_i64.
  destruct (Z.ltb_spec z (- 2 ^ 63)) as [Hlow | Hlow].
  - replace (z + 2 ^ 63) with (z + 2 ^ 64 + 2 ^ 63 + (-1) * 2 ^ 64) by lia.
    rewrite Z_mod_plus_full. rewrite Z.mod_small by lia. lia.
  - destruct (Z.ltb_spec z (2 ^ 63)) as [Hmid | Hhigh].
    + rewrite Z.mod_small by lia. lia.
    + replace (z + 2 ^ 63) with (z - 2 ^ 64 + 2 ^ 63 + 1 * 2 ^ 64) by lia.
      rewrite Z_mod_plus_full. rewrite Z.mod_small by lia. lia.
Qed.

Lemma wrap_u64_cases (z : Z) :
  - 2 ^ 64 <= z < 2 ^ 64 ->
  wrap_u64 z = if z <? 0 then z + 2 ^ 64 else z.
Proof.
  intros Hz. unfold wrap_u64.
  destruct (Z.ltb_spec z 0) as [Hneg | Hpos].
  - replace z with (z + 2 ^ 64 + (-1) * 2 ^ 64) at 1 by lia.
    rewrite Z_mod_plus_full. now rewrite Z.mod_small by lia.
  - now rewrite Z.mod_small by lia.
Qed.

(** The gas-limit difference [verifyHeader] compares with the bound is
    computed in [int64]: for any two [uint64] gas limits it is the circular
    distance modulo 2^64, the smaller of |H - P| and 2^64 - |H - P|.  It
    never exceeds the true difference and equals it exactly when the true
    difference is at most 2^63. *)
Theorem gasLimitDiff_circular (header parent : Header) :
  0 <= GasLimit header < 2 ^ 64 ->
  0 <= GasLimit parent < 2 ^ 64 ->
  let d := Z.abs (GasLimit header - GasLimit parent) in
  gasLimitDiff header parent = Z.min d (2 ^ 64 - d) /\
  gasLimitDiff header parent <= d /\
  (gasLimitDiff header parent = d <-> d <= 2 ^ 63).
Proof.
  intros Hh Hp d.
  assert (Hdiff : gasLimitDiff header parent = Z.min d (2 ^ 64 - d)).
  { subst d. unfold gasLimitDiff.
    rewrite (wrap_i64_cases (GasLimit parent)) by lia.
    rewrite (wrap_i64_cases (GasLimit header)) by lia.
    destruct (Z.ltb_spec (GasLimit parent) (- 2 ^ 63)); [lia |].
    destruct (Z.ltb_spec (GasLimit header) (- 2 ^ 63)); [lia |].
    destruct (Z.ltb_spec (GasLimit parent) (2 ^ 63));
      destruct (Z.ltb_spec (GasLimit header) (2 ^ 63));
      match goal with
      | |- context [wrap_i64 (?a - ?b)] =>
          rewrite (wrap_i64_cases (a - b)) by lia;
          destruct (Z.ltb_spec (a - b) (- 2 ^ 63));
          [| destruct (Z.ltb_spec (a - b) (2 ^ 63))]
      end;
      match goal with
      | |- context [if ?x <? 0 then _ else _] =>
          destruct (Z.ltb_spec x 0); try lia
      end;
      repeat match goal with
      | |- context [wrap_i64 ?x] =>
          rewrite (wrap_i64_cases x) by lia;
          destruct (Z.ltb_spec x (- 2 ^ 63)); try lia;
          destruct (Z.ltb_spec x (2 ^ 63)); try lia
      end;
      match goal with
      | |- context [wrap_u64 ?x] =>
          rewrite (wrap_u64_cases x) by lia;
          destruct (Z.ltb_spec x 0); lia
      end. }
  rewrite Hdiff. subst d. split; [reflexivity | split; lia].
Qed.

Lemma gasLimitDiff_circular_witness :
  gasLimitDiff (exampleHeader 0 1 5000 0 10) (exampleHeader 0 0 (2 ^ 64 - 1) 0 0) = 5001
  /\ Z.abs (5000 - (2 ^ 64 - 1)) = 2 ^ 64 - 5001.
Proof.
  split; [| reflexivity].
  destruct (gasLimitDiff_circular (exampleHeader 0 1 5000 0 10)
              (exampleHeader 0 0 (2 ^ 64 - 1) 0 0)
              ltac:(split; vm_compute; congruence)
              ltac:(split; vm_compute; congruence)) as (Hd & _).
  etransitivity; [exact Hd | reflexivity].
Defined.

(** The clock enters [verifyHeader] through the future-block check only:
    unless the result is [ErrFutureBlock], the result is the same at every
    later reading of the clock.  In particular an accepted header stays
    accepted. *)
Theorem verifyHeader_later_clock params ethash chain header parent seal (now now' : Z) :
  now <= now' ->
  verifyHeader params ethash now chain header parent seal <> Some ErrFutureBlock ->
  verifyHeader params ethash now' chain header parent seal
  = verifyHeader params ethash now chain header parent seal.
Proof.
  intros Hle Hnot. unfold verifyHeader in *.
  destruct (Z.of_nat (length (Extra header)) >? MaximumExtraDataSize params);
    [reflexivity |].
  destruct (Z.gtb_spec (Time header) (now + allowedFutureBlockTime)) as [Hfut | Hok].
  - now elim Hnot.
  - destruct (Z.gtb_spec (Time header) (now' + allowedFutureBlockTime)); [lia |].
    reflexivity.
Qed.

Lemma verifyHeader_later_clock_witness :
  verifyHeader defaultParams exampleEngine 5000 (chainOf [genesis]) block2_gas block1 true
  = Some (errGasLimitBound 2000000 1000000 976).
Proof.
  etransitivity.
  - apply (verifyHeader_later_clock defaultParams exampleEngine (chainOf [genesis])
             block2_gas block1 true 2000 5000); [lia | discriminate].
  - reflexivity.
Defined.

(** Asking for the seal check never changes the outcome of the rule checks:
    with [seal = true] the result is the rule-check error if there is one,
    and otherwise the result of [VerifySeal]; with [seal = false] the result
    is never the invalid-seal error. *)
Theorem verifyHeader_seal_flag params ethash now chain header parent :
  verifyHeader params ethash now chain header parent true
  = match verifyHeader params ethash now chain header parent false with
    | Some e => Some e
    | None => VerifySeal ethash chain header
    end
  /\ verifyHeader params ethash now chain header parent false <> Some errInvalidPoW.
Proof.
  unfold verifyHeader. cbv zeta.
  repeat match goal with
         | |- context [if ?b then Some _ else _] =>
             destruct b; [split; [reflexivity | discriminate] |]
         end.
  split; [| discriminate]. now destruct (VerifySeal ethash chain header).
Qed.

(** Batch verification of the first header and single verification give the
    same result, except for a header the chain already knows whose parent
    the chain does not hold: there single verification succeeds and the
    batch worker reports an unknown ancestor (the worker looks for the
    parent first, the single entry point for the header first). *)
Theorem worker_first_vs_VerifyHeader Hash params ethash now chain
    (headers : list Header) (seals : list bool) (h : Header) (seal : bool)
    (r : option error) :
  headers !! 0%nat = Some h ->
  seals !! 0%nat = Some seal ->
  verifyHeaderWorker Hash params ethash now chain headers seals 0 = Some r ->
  (r <> VerifyHeader Hash params ethash now chain h seal <->
     GetHeader chain (Hash h) (Uint64 (Number h)) <> None /\
     GetHeader chain (ParentHash h) (wrap_u64 (Uint64 (Number h) - 1)) = None) /\
  (r <> VerifyHeader Hash params ethash now chain h seal ->
     r = Some ErrUnknownAncestor /\
     VerifyHeader Hash params ethash now chain h seal = None).
Proof.
  intros Hh Hs. unfold verifyHeaderWorker, VerifyHeader. rewrite Hh, Hs. simpl.
  destruct (GetHeader chain (ParentHash h) _) as [p |];
    destruct (GetHeader chain (Hash h) _) as [k |]; intros [= <-].
  - split; [| intros Hne; now elim Hne].
    split; [intros Hne; now elim Hne | intros [_ [=]]].
  - split; [| intros Hne; now elim Hne].
    split; [intros Hne; now elim Hne | intros [_ [=]]].
  - split; [| intros _; now split].
    split; [intros _; now split | discriminate].
  - split; [| intros Hne; now elim Hne].
    split; [intros Hne; now elim Hne | intros [Hk _]; now elim Hk].
Qed.

Lemma worker_first_vs_VerifyHeader_witness :
  verifyHeaderWorker exampleHash defaultParams exampleEngine 2000 (chainOf [genesis])
                     [genesis] [true] 0 = Some (Some ErrUnknownAncestor)
  /\ VerifyHeader exampleHash defaultParams exampleEngine 2000 (chainOf [genesis])
                  genesis true = None.
Proof.
  split; [reflexivity |].
  apply (worker_first_vs_VerifyHeader exampleHash defaultParams exampleEngine 2000
           (chainOf [genesis]) [genesis] [true] genesis true
           (Some ErrUnknownAncestor) eq_refl eq_refl eq_refl).
  discriminate.
Defined.

(** [Prepare] and the batch worker ask the chain for the same parent: for
    the first header of a batch the worker reports an unknown ancestor
    exactly when [Prepare] fails, and a header [Prepare] accepts is never
    reported as having an unknown ancestor by [VerifyHeader]. *)
Theorem Prepare_agrees Hash params ethash now chain
    (headers : list Header) (seals : list bool) (h : Header) (seal : bool) :
  headers !! 0%nat = Some h ->
  (verifyHeaderWorker Hash params ethash now chain headers seals 0
     = Some (Some ErrUnknownAncestor) <->
   Prepare chain h = Some ErrUnknownAncestor) /\
  (Prepare chain h = None ->
   VerifyHeader Hash params ethash now chain h seal <> Some ErrUnknownAncestor) /\
  (Prepare chain h = None \/ Prepare chain h = Some ErrUnknownAncestor).
Proof.
  intros Hh. unfold verifyHeaderWorker, VerifyHeader, Prepare. rewrite Hh. simpl.
  destruct (GetHeader chain (ParentHash h) _) as [p |].
  - split; [| split; [| now left]].
    + split; [| discriminate].
      destruct (GetHeader chain (Hash h) _) as [k |]; [discriminate |].
      destruct (seals !! 0%nat) as [b |]; simpl; [| discriminate].
      intros [= Hv]. now apply verifyHeader_not_UnknownAncestor in Hv.
    + intros _. destruct (GetHeader chain (Hash h) _) as [k |]; [discriminate |].
      apply verifyHeader_not_UnknownAncestor.
  - split; [| split; [discriminate | now right]].
    split; reflexivity.
Qed.

Lemma Prepare_agrees_witness :
  Prepare (chainOf [genesis]) block1 = None
  /\ Prepare (chainOf [genesis]) block2 = Some ErrUnknownAncestor
  /\ verifyHeaderWorker exampleHash defaultParams exampleEngine 2000 (chainOf [genesis])
                        [block2] [true] 0 = Some (Some ErrUnknownAncestor).
Proof.
  split; [reflexivity |]. split; [reflexivity |].
  apply (Prepare_agrees exampleHash defaultParams exampleEngine 2000 (chainOf [genesis])
           [block2] [true] block2 true eq_refl).
  reflexivity.
Defined.

(** ** Issuance *)

Lemma totalBalance_insert (s : gmap Z Account) (addr : Z) (a : Account) :
  totalBalance (<[addr := a]> s)
  = Balance a + totalBalance s - Balance (getAccount s addr).
Proof.
  unfold totalBalance, getAccount.
  destruct (s !! addr) as [old |] eqn:Hold; simpl.
  - rewrite <- (insert_delete_eq s).
    rewrite map_fold_insert_L; [| intros; lia | apply lookup_delete_eq].
    rewrite (map_fold_delete_L _ _ addr old s); [lia | intros; lia | exact Hold].
  - rewrite map_fold_insert_L; [lia | intros; lia | exact Hold].
Qed.

(** [accumulateRewards] issues exactly the block reward: the sum of all
    balances grows by the reward and by nothing else, whether or not the
    coinbase had an account before. *)
Theorem accumulateRewards_issuance (config : ChainConfig) (m : Store) :
  totalBalance (stateDB (accumulateRewards config m))
  = totalBalance (stateDB m)
    + (if IsByzantium config (Number (hdr m)) then ByzantiumBlockReward
       else FrontierBlockReward).
Proof.
  rewrite accumulateRewards_state. unfold AddBalance.
  rewrite totalBalance_insert. simpl. lia.
Qed.

(** In a batch a header the chain already knows gets no rule check and no
    seal check: its result is success when its parent resolves and an
    unknown ancestor otherwise, whatever the clock, the seal flags, the
    protocol parameters and the engine are. *)
Theorem worker_known_header Hash params ethash now chain
    (headers : list Header) (seals : list bool) (i : nat) (h known : Header)
    (r : option error) :
  headers !! i = Some h ->
  GetHeader chain (Hash h) (Uint64 (Number h)) = Some known ->
  verifyHeaderWorker Hash params ethash now chain headers seals i = Some r ->
  (r = None \/ r = Some ErrUnknownAncestor) /\
  (forall params' ethash' now' seals',
     verifyHeaderWorker Hash params' ethash' now' chain headers seals' i = Some r).
Proof.
  intros Hh Hknown. unfold verifyHeaderWorker. rewrite Hh. simpl.
  destruct i as [| j]; simpl.
  - destruct (GetHeader chain (ParentHash h) _) as [p |]; rewrite ?Hknown;
      intros [= <-]; (split; [auto | reflexivity]).
  - destruct (headers !! j) as [p |]; simpl; [| discriminate].
    destruct (Hash p =? ParentHash h); rewrite ?Hknown;
      intros [= <-]; (split; [auto | reflexivity]).
Qed.

Lemma worker_known_header_witness :
  verifyHeaderWorker exampleHash defaultParams exampleEngine 2000
    (chainOf [genesis; block1; block2_gas]) [block1; block2_gas] [true; true] 1
  = Some None
  /\ verifyHeader defaultParams exampleEngine 2000
       (chainOf [genesis; block1; block2_gas]) block2_gas block1 true
     = Some (errGasLimitBound 2000000 1000000 976).
Proof.
  split; [| reflexivity].
  apply (worker_known_header exampleHash defaultParams exampleEngine 2000
           (chainOf [genesis; block1; block2_gas]) [block1; block2_gas] [true; true]
           1 block2_gas block2_gas None eq_refl eq_refl eq_refl).
Defined.

(** ** Metered message streams *)

Section MeteredProperties.

Variable Stream : Type.
Variable Err : Type.
Variable innerReadMsg : Stream -> metrics.Msg * option Err * Stream.
Variable innerWriteMsg : metrics.Msg -> Stream -> option Err * Stream.

Local Abbreviation World := (metrics.World Stream).
Local Abbreviation performAll := (metrics.performAll Stream Err innerReadMsg innerWriteMsg).
Local Abbreviation perform := (metrics.perform Stream Err innerReadMsg innerWriteMsg).
Local Abbreviation direct := (metrics.direct Stream Err innerReadMsg innerWriteMsg).

Lemma marked_app (m : metrics.Meter) (l1 l2 : list (metrics.Meter * Z)) :
  metrics.marked m (l1 ++ l2) = metrics.marked m l1 + metrics.marked m l2.
Proof.
  induction l1 as [| [m' n] l1 IH]; simpl; [reflexivity |]. rewrite IH. lia.
Qed.

(** The metering wrapper is transparent: any sequence of reads, writes and
    [Init] calls made through what [newMeteredMsgWriter] returns gives the
    results, and leaves the wrapped stream in the state, that the same calls
    give on the wrapped stream directly, whatever version was set. *)
Theorem metered_transparent (cs : list metrics.call) (rw : metrics.MsgReadWriter)
    (w : World) :
  let '(rs, _, w') := performAll cs rw w in
  direct cs (metrics.stream Stream w) = (rs, metrics.stream Stream w').
Proof.
  revert rw w. induction cs as [| c cs IH]; intros rw w; simpl; [reflexivity |].
  destruct c as [v | | msg], rw as [| m]; simpl;
    unfold metrics.ReadMsg, metrics.WriteMsg; simpl.
  - specialize (IH metrics.Plain w).
    destruct (performAll cs metrics.Plain w) as [[rs rw'] w'].
    now rewrite IH.
  - specialize (IH (metrics.Metered (metrics.Init m v)) w).
    destruct (performAll cs _ w) as [[rs rw'] w'].
    now rewrite IH.
  - destruct (innerReadMsg (metrics.stream Stream w)) as [[msg err] s].
    specialize (IH metrics.Plain (metrics.mkWorld Stream s (metrics.marks Stream w))).
    destruct (performAll cs _ _) as [[rs rw'] w'].
    simpl in IH. now rewrite IH.
  - destruct (innerReadMsg (metrics.stream Stream w)) as [[msg err] s].
    destruct err as [e |].
    + specialize (IH (metrics.Metered m)
                     (metrics.mkWorld Stream s (metrics.marks Stream w))).
      destruct (performAll cs _ _) as [[rs rw'] w'].
      simpl in IH. now rewrite IH.
    + match goal with
      | |- context [performAll cs ?r ?x] =>
          specialize (IH r x); destruct (performAll cs r x) as [[rs rw'] w']
      end.
      simpl in IH. now rewrite IH.
  - destruct (innerWriteMsg msg (metrics.stream Stream w)) as [err s].
    specialize (IH metrics.Plain (metrics.mkWorld Stream s (metrics.marks Stream w))).
    destruct (performAll cs _ _) as [[rs rw'] w'].
    simpl in IH. now rewrite IH.
  - destruct (innerWriteMsg msg (metrics.stream Stream w)) as [err s].
    match goal with
    | |- context [performAll cs ?r ?x] =>
        specialize (IH r x); destruct (performAll cs r x) as [[rs rw'] w']
    end.
    simpl in IH. now rewrite IH.
Qed.

(** What the wrapper meters: over any sequence of calls the in-meters grow
    by the number and the sizes of the messages read without error (a
    failed read is not counted), the out-meters by the number and the sizes
    of all messages written, failed writes included, and nothing else is
    marked; the version set by [Init] plays no part.  The stream returned
    when metrics are disabled marks nothing at all. *)
Theorem metered_accounting (cs : list metrics.call) (w : World) :
  (forall m : metrics.meteredMsgReadWriter,
     let '(rs, _, w') := performAll cs (metrics.Metered m) w in
     let marks := metrics.marks Stream in
     metrics.marked metrics.miscInPacketsMeter (marks w')
       = metrics.marked metrics.miscInPacketsMeter (marks w)
         + fst (metrics.readsOk Err rs) /\
     metrics.marked metrics.miscInTrafficMeter (marks w')
       = metrics.marked metrics.miscInTrafficMeter (marks w)
         + snd (metrics.readsOk Err rs) /\
     metrics.marked metrics.miscOutPacketsMeter (marks w')
       = metrics.marked metrics.miscOutPacketsMeter (marks w)
         + fst (metrics.writesTried cs) /\
     metrics.marked metrics.miscOutTrafficMeter (marks w')
       = metrics.marked metrics.miscOutTrafficMeter (marks w)
         + snd (metrics.writesTried cs)) /\
  (let '(_, _, w') := performAll cs (metrics.newMeteredMsgWriter false) w in
   metrics.marks Stream w' = metrics.marks Stream w).
Proof.
  split.
  - revert w. induction cs as [| c cs IH]; intros w m; simpl.
    + repeat split; lia.
    + destruct c as [v | | msg]; simpl;
        unfold metrics.ReadMsg, metrics.WriteMsg; simpl.
      * specialize (IH w (metrics.Init m v)).
        destruct (performAll cs _ w) as [[rs rw'] w']. simpl. exact IH.
      * destruct (innerReadMsg (metrics.stream Stream w)) as [[msg err] s].
        destruct err as [e |];
          match goal with
          | |- context [performAll cs (metrics.Metered ?r) ?x] =>
              specialize (IH x r);
              destruct (performAll cs (metrics.Metered r) x) as [[rs rw'] w']
          end; simpl in *.
        -- exact IH.
        -- destruct (metrics.readsOk Err rs) as [p t]. simpl in *.
           rewrite !marked_app in IH. simpl in IH.
           repeat split; lia.
      * destruct (innerWriteMsg msg (metrics.stream Stream w)) as [err s].
        match goal with
        | |- context [performAll cs (metrics.Metered ?r) ?x] =>
            specialize (IH x r);
            destruct (performAll cs (metrics.Metered r) x) as [[rs rw'] w']
        end; simpl in *.
        destruct (metrics.writesTried cs) as [p t]. simpl in *.
        rewrite !marked_app in IH. simpl in IH.
        repeat split; lia.
  - change (metrics.newMeteredMsgWriter false) with metrics.Plain.
    revert w. induction cs as [| c cs IH]; intros w; simpl; [reflexivity |].
    destruct c as [v | | msg]; simpl.
    + specialize (IH w).
      destruct (performAll cs metrics.Plain w) as [[rs rw'] w']. exact IH.
    + destruct (innerReadMsg (metrics.stream Stream w)) as [[msg err] s].
      specialize (IH (metrics.mkWorld Stream s (metrics.marks Stream w))).
      destruct (performAll cs _ _) as [[rs rw'] w']. exact IH.
    + destruct (innerWriteMsg msg (metrics.stream Stream w)) as [err s].
      specialize (IH (metrics.mkWorld Stream s (metrics.marks Stream w))).
      destruct (performAll cs _ _) as [[rs rw'] w']. exact IH.
Qed.

End MeteredProperties.

(** ** The full node service *)

(** The extra data [makeExtraData] returns always fits the protocol bound,
    so a header carrying it never fails [verifyHeader] for its extra data;
    a non-empty input within the bound is returned as it is, and an input
    over the bound is replaced by the empty extra data, not by the
    default. *)
Theorem makeExtraData_fits (params : ProtocolParams)
    (defaultExtra extra : list Byte.byte) :
  0 <= MaximumExtraDataSize params ->
  let result := goolabackend.makeExtraData params defaultExtra extra in
  Z.of_nat (length result) <= MaximumExtraDataSize params /\
  (forall ethash now chain header parent seal have max,
     Extra header = result ->
     verifyHeader params ethash now chain header parent seal
       <> Some (errExtraTooLong have max)) /\
  (extra <> [] -> Z.of_nat (length extra) <= MaximumExtraDataSize params ->
     result = extra) /\
  (Z.of_nat (length extra) > MaximumExtraDataSize params -> result = []).
Proof.
  intros Hmax result.
  assert (Hfit : Z.of_nat (length result) <= MaximumExtraDataSize params).
  { subst result. unfold goolabackend.makeExtraData.
    destruct (Z.gtb_spec (Z.of_nat (length (if (length extra =? 0)%nat
                                            then defaultExtra else extra)))
                         (MaximumExtraDataSize params)); simpl; lia. }
  split; [exact Hfit |]. split; [| split].
  - intros ethash now chain header parent seal have max Hextra.
    unfold verifyHeader. rewrite Hextra.
    destruct (Z.gtb_spec (Z.of_nat (length result)) (MaximumExtraDataSize params));
      [lia |].
    repeat match goal with
           | |- context [if ?b then _ else _] => destruct b; try discriminate
           end.
    unfold VerifySeal.
    destruct (fakeFail ethash =? Uint64 (Number header)); discriminate.
  - intros Hne Hlen. subst result. unfold goolabackend.makeExtraData.
    replace ((length extra =? 0)%nat) with false
      by (destruct extra; [now elim Hne | reflexivity]).
    destruct (Z.gtb_spec (Z.of_nat (length extra)) (MaximumExtraDataSize params));
      [lia | reflexivity].
  - intros Hlen. subst result. unfold goolabackend.makeExtraData.
    replace ((length extra =? 0)%nat) with false
      by (destruct extra; [simpl in Hlen; lia | reflexivity]).
    destruct (Z.gtb_spec (Z.of_nat (length extra)) (MaximumExtraDataSize params));
      [reflexivity | lia].
Qed.

Lemma makeExtraData_fits_witness :
  goolabackend.makeExtraData defaultParams [Byte.x01] (replicate 33 Byte.x00) = []
  /\ Z.of_nat (length (goolabackend.makeExtraData defaultParams [Byte.x01] [])) <= 32.
Proof.
  split; [reflexivity |].
  apply (makeExtraData_fits defaultParams [Byte.x01] []). vm_compute. discriminate.
Defined.

Section ServiceProperties.

Variable AccountErr : Type.
Variable Find : list (list common_Address) -> common_Address -> bool * option AccountErr.

Local Abbreviation Goolase := (goolabackend.Goolase AccountErr).
Local Abbreviation StartMining := (goolabackend.StartMining AccountErr Find).
Local Abbreviation Start := (goolabackend.Start AccountErr).

(** [Goolase] fails exactly when no address is configured and the first
    wallet is missing or has no account: wallets after the first are never
    looked at.  On failure the zero address is returned and nothing changes;
    on success the address returned is the one stored afterwards, and
    nothing but the stored address changes. *)
Theorem Goolase_outcome (g : goolabackend.FullGoola) :
  let '(addr, err, g') := Goolase g in
  (err <> None <->
     goolabackend.etherbase g = 0 /\
     (goolabackend.wallets g = [] \/
      exists ws, goolabackend.wallets g = [] :: ws)) /\
  (err <> None -> addr = 0 /\ g' = g) /\
  (err = None ->
     goolabackend.etherbase g' = addr /\
     g' = goolabackend.set_etherbase g addr /\
     (goolabackend.etherbase g <> 0 -> addr = goolabackend.etherbase g)).
Proof.
  unfold goolabackend.Goolase.
  destruct (Z.eqb_spec (goolabackend.etherbase g) 0) as [Hz | Hnz]; simpl.
  - destruct (goolabackend.wallets g) as [| [| a w] ws] eqn:Hw.
    + split; [split; [intros _; split; [exact Hz | now left] | discriminate] |].
      split; [intros _; now split | discriminate].
    + split; [split; [intros _; split; [exact Hz | right; now exists ws]
                     | discriminate] |].
      split; [intros _; now split | discriminate].
    + split; [split; [intros Hne; now elim Hne |] |].
      * intros [_ [[=] | [ws' [=]]]].
      * split; [intros Hne; now elim Hne |]. intros _. simpl.
        split; [reflexivity | split; [reflexivity | congruence]].
  - split; [split; [intros Hne; now elim Hne | intros [Hz _]; contradiction] |].
    split; [intros Hne; now elim Hne |]. intros _.
    split; [reflexivity | split; [now destruct g | reflexivity]].
Qed.

(** The address [Goolase] has returned once is what it keeps returning: a
    second call gives the same address and changes nothing, and when the
    address is not the zero address this holds whatever wallets are added
    or removed in between.  After [SetEtherbase] with a non-zero address
    [Goolase] returns that address; after [SetEtherbase] with the zero
    address it falls back to the first wallet again. *)
Theorem Goolase_cached (g : goolabackend.FullGoola) (addr : common_Address)
    (g' : goolabackend.FullGoola) :
  Goolase g = (addr, None, g') ->
  Goolase g' = (addr, None, g') /\
  (addr <> 0 -> forall ws,
     Goolase (goolabackend.set_wallets g' ws)
     = (addr, None, goolabackend.set_wallets g' ws)) /\
  (forall a, a <> 0 ->
     Goolase (goolabackend.SetEtherbase g a) = (a, None, goolabackend.SetEtherbase g a)) /\
  (forall a w ws, goolabackend.wallets g = (a :: w) :: ws ->
     fst (Goolase (goolabackend.SetEtherbase g 0)) = (a, None)).
Proof.
  intros Hg. split; [| split; [| split]].
  - unfold goolabackend.Goolase in *.
    destruct (Z.eqb_spec (goolabackend.etherbase g) 0) as [Hz | Hnz]; simpl in Hg.
    + destruct (goolabackend.wallets g) as [| [| a w] ws] eqn:Hw; try discriminate.
      injection Hg as <- <-. simpl.
      destruct (Z.eqb_spec a 0) as [-> | Hne]; simpl; [| reflexivity].
      rewrite Hw. reflexivity.
    + injection Hg as <- <-.
      destruct (Z.eqb_spec (goolabackend.etherbase g) 0); [contradiction | reflexivity].
  - intros Hne ws. unfold goolabackend.Goolase in *.
    destruct (Z.eqb_spec (goolabackend.etherbase g) 0) as [Hz | Hnz]; simpl in Hg.
    + destruct (goolabackend.wallets g) as [| [| a w] ws'] eqn:Hw; try discriminate.
      injection Hg as <- <-. simpl.
      destruct (Z.eqb_spec a 0); [contradiction | reflexivity].
    + injection Hg as <- <-. simpl.
      destruct (Z.eqb_spec (goolabackend.etherbase g) 0); [contradiction | reflexivity].
  - intros a Ha. unfold goolabackend.Goolase, goolabackend.SetEtherbase. simpl.
    destruct (Z.eqb_spec a 0); [contradiction | reflexivity].
  - intros a w ws Hw. unfold goolabackend.Goolase, goolabackend.SetEtherbase. simpl.
    now rewrite Hw.
Qed.

(** [StartMining] succeeds exactly when [Goolase] yields an address and, for
    a clique engine, the account manager finds its wallet without error.
    Only then is the miner started, with that address, and the engine
    authorised; [acceptTxs] is set to 1 only on success with local mining.
    On failure miner, [acceptTxs] and signer stay as they were, but an
    address that [Goolase] took from the first wallet stays stored. *)
Theorem StartMining_outcome (g : goolabackend.FullGoola) (local : bool) :
  let '(err, g') := StartMining g local in
  let '(eb, gerr, g1) := Goolase g in
  (err = None <->
     gerr = None /\
     (goolabackend.engineIsClique g = true ->
      Find (goolabackend.wallets g) eb = (true, None))) /\
  (err = None ->
     goolabackend.mining g' = Some eb /\
     goolabackend.etherbase g' = eb /\
     goolabackend.acceptTxs g' = (if local then 1 else goolabackend.acceptTxs g) /\
     (goolabackend.engineIsClique g = true -> goolabackend.cliqueSigner g' = Some eb)) /\
  (err <> None ->
     g' = g1 /\
     goolabackend.mining g' = goolabackend.mining g /\
     goolabackend.acceptTxs g' = goolabackend.acceptTxs g /\
     goolabackend.cliqueSigner g' = goolabackend.cliqueSigner g).
Proof.
  assert (Hcases :
    (exists e, Goolase g = (0, Some e, g)) \/
    (exists eb, Goolase g = (eb, None, goolabackend.set_etherbase g eb))).
  { unfold goolabackend.Goolase.
    destruct (Z.eqb_spec (goolabackend.etherbase g) 0) as [Hz | Hnz]; simpl.
    - destruct (goolabackend.wallets g) as [| [| a w] ws]; eauto.
    - right. exists (goolabackend.etherbase g). now destruct g. }
  unfold goolabackend.StartMining.
  destruct Hcases as [[e ->] | [eb ->]]; simpl.
  - split; [split; [discriminate | intros [[=] _]] |].
    split; [discriminate | intros _; repeat split].
  - destruct (goolabackend.engineIsClique g) eqn:Hclique.
    + destruct (Find (goolabackend.wallets g) eb) as [found ferr] eqn:Hfind.
      destruct found, ferr as [fe |]; simpl.
      * split; [split; [discriminate | intros [_ Hf]; specialize (Hf eq_refl);
                                       discriminate] |].
        split; [discriminate | intros _; repeat split].
      * split; [split; [intros _; now split | reflexivity] |].
        split; [| intros Hne; now elim Hne]. intros _.
        destruct local; simpl; repeat split.
      * split; [split; [discriminate | intros [_ Hf]; specialize (Hf eq_refl);
                                       discriminate] |].
        split; [discriminate | intros _; repeat split].
      * split; [split; [discriminate | intros [_ Hf]; specialize (Hf eq_refl);
                                       discriminate] |].
        split; [discriminate | intros _; repeat split].
    + split; [split; [intros _; split; [reflexivity | discriminate] | reflexivity] |].
      split; [| intros Hne; now elim Hne]. intros _.
      destruct local; simpl; repeat split; discriminate.
Qed.

(** [Start] fails exactly when light serving is on and the light peer count
    is not below the server's peer limit; the bloom handlers and the net RPC
    service are started even then, the protocol manager and the light server
    are not.  On success the protocol manager gets the server's limit, or,
    with light serving on, the limit less the light peers: with a
    non-negative light peer count that is between 1 and the limit, while a
    negative light peer count raises it above the limit. *)
Theorem Start_peer_limit (g : goolabackend.FullGoola) (MaxPeers : Z) :
  - 2 ^ 63 <= MaxPeers < 2 ^ 63 ->
  let '(err, g') := Start g MaxPeers in
  (err <> None <->
     goolabackend.LightServ g > 0 /\ goolabackend.LightPeers g >= MaxPeers) /\
  goolabackend.bloomHandlers g' = true /\
  goolabackend.netRPCService g' = Some (goolabackend.networkId g) /\
  (err <> None ->
     goolabackend.pmMaxPeers g' = goolabackend.pmMaxPeers g /\
     goolabackend.lesStarted g' = goolabackend.lesStarted g) /\
  (err = None ->
     exists maxPeers, goolabackend.pmMaxPeers g' = Some maxPeers /\
       (goolabackend.hasLesServer g = true -> goolabackend.lesStarted g' = true) /\
       (goolabackend.LightServ g <= 0 -> maxPeers = MaxPeers) /\
       (goolabackend.LightServ g > 0 -> 0 <= goolabackend.LightPeers g ->
          maxPeers = MaxPeers - goolabackend.LightPeers g /\
          0 < maxPeers <= MaxPeers) /\
       (goolabackend.LightServ g > 0 -> goolabackend.LightPeers g < 0 ->
          MaxPeers - goolabackend.LightPeers g < 2 ^ 63 ->
          maxPeers > MaxPeers)).
Proof.
  intros Hmax. unfold goolabackend.Start. simpl.
  destruct (Z.gtb_spec (goolabackend.LightServ g) 0) as [Hserv | Hnoserv].
  - destruct (Z.geb_spec (goolabackend.LightPeers g) MaxPeers) as [Hge | Hlt]; simpl.
    + split; [split; [intros _; lia | discriminate] |].
      split; [reflexivity |]. split; [reflexivity |].
      split; [intros _; now split | discriminate].
    + split; [split; [intros Hne; now elim Hne | lia] |].
      split; [reflexivity |]. split; [reflexivity |].
      split; [intros Hne; now elim Hne |]. intros _.
      eexists. split; [reflexivity |].
      split; [intros ->; reflexivity |].
      split; [lia |]. split.
      * intros _ Hpos. rewrite wrap_i64_small by lia. lia.
      * intros _ Hneg Hfit. rewrite wrap_i64_small by lia. lia.
  - simpl. split; [split; [intros Hne; now elim Hne | lia] |].
    split; [reflexivity |]. split; [reflexivity |].
    split; [intros Hne; now elim Hne |]. intros _.
    exists MaxPeers. split; [reflexivity |].
    split; [intros ->; reflexivity |].
    split; [reflexivity |]. split; lia.
Qed.

End ServiceProperties.

Lemma Goolase_cached_witness :
  let g := goolabackend.mkFullGoola 0 1 0 0 true false [[7; 8]; [9]] 0 None 0 None
             false None None false in
  goolabackend.Goolase unit (goolabackend.set_etherbase g 7)
  = (7, None, goolabackend.set_etherbase g 7).
Proof.
  apply (Goolase_cached unit
           (goolabackend.mkFullGoola 0 1 0 0 true false [[7; 8]; [9]] 0 None 0 None
              false None None false) 7).
  reflexivity.
Defined.

Lemma Start_peer_limit_witness :
  let g := goolabackend.mkFullGoola 0 1 1 10 true true [] 0 None 0 None
             false None None false in
  goolabackend.pmMaxPeers (snd (goolabackend.Start unit g 25)) = Some 15
  /\ fst (goolabackend.Start unit g 10) = Some (goolabackend.errInvalidPeerConfig 10 10).
Proof.
  split; [| reflexivity].
  pose proof (Start_peer_limit unit
                (goolabackend.mkFullGoola 0 1 1 10 true true [] 0 None 0 None
                   false None None false) 25 ltac:(lia)) as H.
  destruct (goolabackend.Start unit _ 25) as [err g'] eqn:HS.
  destruct H as (_ & _ & _ & _ & Hok).
  assert (Herr : err = None) by (injection HS as <- _; reflexivity).
  destruct (Hok Herr) as (mp & Hmp & _ & _ & Hpos & _).
  destruct (Hpos ltac:(simpl; lia) ltac:(simpl; lia)) as [-> _].
  exact Hmp.
Defined.


(** ** The API backends *)

Section FullNodeProperties.

Variables Block StateDB Transaction Err : Type.
Variable BlockHeader : Block -> Header.
Variables PendingBlockNumber LatestBlockNumber : Z.

Local Abbreviation Node := (apibackend.Node Block StateDB Err).
Local Abbreviation HeaderByNumber :=
  (apibackend.HeaderByNumber Block StateDB Err BlockHeader
     PendingBlockNumber LatestBlockNumber).
Local Abbreviation StateAndHeaderByNumber :=
  (apibackend.StateAndHeaderByNumber Block StateDB Err BlockHeader
     PendingBlockNumber LatestBlockNumber).
Local Abbreviation GetPoolTransactions :=
  (apibackend.GetPoolTransactions Transaction Err).

(** On a full node a block number the chain has no header for gives no
    state, no header and no error: [StateAndHeaderByNumber] returns three
    nils exactly when the number is neither pending nor latest and the
    chain finds no header at the number converted to [uint64].  An error
    can only come from opening the state at the root of the header found,
    and the header returned is the one [HeaderByNumber] returns. *)
Theorem StateAndHeaderByNumber_missing_block (b : Node) (blockNr : Z) :
  let '(state, header, err) := StateAndHeaderByNumber b blockNr in
  (header = None <->
     blockNr <> PendingBlockNumber /\ blockNr <> LatestBlockNumber /\
     apibackend.GetHeaderByNumber Block StateDB Err b (wrap_u64 blockNr) = None) /\
  (header = None -> state = None /\ err = None) /\
  (forall h, header = Some h -> blockNr <> PendingBlockNumber ->
     HeaderByNumber b blockNr = (Some h, None) /\
     apibackend.StateAt Block StateDB Err b (Root h) = (state, err)) /\
  snd (HeaderByNumber b blockNr) = None.
Proof.
  unfold apibackend.StateAndHeaderByNumber, apibackend.HeaderByNumber.
  destruct (Z.eqb_spec blockNr PendingBlockNumber) as [Hp | Hnp].
  - destruct (apibackend.Pending Block StateDB Err b) as [block state].
    split; [split; [discriminate | intros [Hne _]; contradiction] |].
    split; [discriminate |]. split; [intros h _ Hne; contradiction | reflexivity].
  - destruct (Z.eqb_spec blockNr LatestBlockNumber) as [Hl | Hnl].
    + destruct (apibackend.StateAt Block StateDB Err b _) as [st e] eqn:Hst.
      split; [split; [discriminate | intros (_ & Hne & _); contradiction] |].
      split; [discriminate |]. split; [| reflexivity].
      intros h [= <-] _. now split.
    + destruct (apibackend.GetHeaderByNumber Block StateDB Err b (wrap_u64 blockNr))
        as [h |] eqn:Hh.
      * destruct (apibackend.StateAt Block StateDB Err b (Root h)) as [st e] eqn:Hst.
        split; [split; [discriminate | intros (_ & _ & [=])] |].
        split; [discriminate |]. split; [| reflexivity].
        intros h' [= <-] _. now split.
      * split; [split; [intros _; now repeat split | reflexivity] |].
        split; [intros _; now split |]. split; [discriminate | reflexivity].
Qed.

Lemma concat_Permutation {A : Type} (l1 l2 : list (list A)) :
  l1 ≡ₚ l2 -> concat l1 ≡ₚ concat l2.
Proof.
  induction 1 as [| x l1 l2 _ IH | x y l | l1 l2 l3 _ IH1 _ IH2]; simpl.
  - reflexivity.
  - now rewrite IH.
  - rewrite !app_assoc. now rewrite (Permutation_app_comm y x).
  - now rewrite IH1.
Qed.

(** [GetPoolTransactions] flattens the pending map in whatever order the
    map is visited: the result holds exactly the transactions of all
    accounts (a permutation of them in any fixed order, none lost, none
    twice), and the transactions of each account stay together and in their
    order. *)
Theorem GetPoolTransactions_order (pending : gmap Z (list Transaction))
    (visited : list (Z * list Transaction)) :
  visited ≡ₚ map_to_list pending ->
  let '(txs, err) := GetPoolTransactions (pending, None) visited in
  err = None /\
  txs ≡ₚ concat (snd <$> map_to_list pending) /\
  length txs = sum_list_with (fun e => length (snd e)) (map_to_list pending) /\
  (forall addr batch, pending !! addr = Some batch ->
     exists before after, txs = before ++ batch ++ after).
Proof.
  intros Hperm. unfold apibackend.GetPoolTransactions. simpl.
  split; [reflexivity |]. split; [| split].
  - apply concat_Permutation. now rewrite Hperm.
  - rewrite <- Hperm. clear Hperm.
    induction visited as [| [a batch] visited IH]; [reflexivity |].
    rewrite fmap_cons.
    change (concat (snd (a, batch) :: (snd <$> visited)))
      with (batch ++ concat (snd <$> visited)).
    rewrite length_app, IH. reflexivity.
  - intros addr batch Hb.
    assert (Hin : (addr, batch) ∈ visited).
    { rewrite Hperm. now apply elem_of_map_to_list. }
    apply list_elem_of_split in Hin. destruct Hin as (l1 & l2 & ->).
    exists (concat (snd <$> l1)), (concat (snd <$> l2)).
    rewrite fmap_app, concat_app. reflexivity.
Qed.

End FullNodeProperties.

Section LightNodeProperties.

Variables Block StateDB Err : Type.
Variable Hash : Header -> common_Hash.
Variables PendingBlockNumber LatestBlockNumber : Z.

Local Abbreviation Node := (lesapi.Node Block StateDB Err).
Local Abbreviation HeaderByNumber :=
  (lesapi.HeaderByNumber Block StateDB Err PendingBlockNumber LatestBlockNumber).
Local Abbreviation BlockByNumber :=
  (lesapi.BlockByNumber Block StateDB Err Hash PendingBlockNumber LatestBlockNumber).
Local Abbreviation StateAndHeaderByNumber :=
  (lesapi.StateAndHeaderByNumber Block StateDB Err PendingBlockNumber LatestBlockNumber).

(** The light client has no pending block: asking for the pending block
    gives what asking for the latest gives, for headers, blocks and states.
    A block is only fetched, by the hash of its header, when the header
    lookup returned a header and no error; otherwise no block is returned
    and the header lookup's error is passed on. *)
Theorem les_pending_is_latest (b : Node) :
  HeaderByNumber b PendingBlockNumber = HeaderByNumber b LatestBlockNumber /\
  BlockByNumber b PendingBlockNumber = BlockByNumber b LatestBlockNumber /\
  StateAndHeaderByNumber b PendingBlockNumber
    = StateAndHeaderByNumber b LatestBlockNumber /\
  (forall blockNr block err, BlockByNumber b blockNr = (Some block, err) ->
     exists h, HeaderByNumber b blockNr = (Some h, None) /\
               lesapi.GetBlockByHash Block StateDB Err b (Hash h) = (Some block, err)) /\
  (forall blockNr, (fst (HeaderByNumber b blockNr) = None \/
                    snd (HeaderByNumber b blockNr) <> None) ->
     BlockByNumber b blockNr = (None, snd (HeaderByNumber b blockNr))).
Proof.
  assert (Hhdr : HeaderByNumber b PendingBlockNumber = HeaderByNumber b LatestBlockNumber).
  { unfold lesapi.HeaderByNumber. rewrite !Z.eqb_refl.
    now rewrite orb_true_r, orb_true_l. }
  split; [exact Hhdr |].
  split; [unfold lesapi.BlockByNumber; now rewrite Hhdr |].
  split; [unfold lesapi.StateAndHeaderByNumber; now rewrite Hhdr |].
  split.
  - intros blockNr block err. unfold lesapi.BlockByNumber, lesapi.GetBlock.
    destruct (HeaderByNumber b blockNr) as [[h |] [e |]]; try discriminate.
    intros Hb. now exists h.
  - intros blockNr. unfold lesapi.BlockByNumber.
    destruct (HeaderByNumber b blockNr) as [[h |] [e |]]; simpl; try reflexivity.
    intros [[=] | Hne]. now elim Hne.
Qed.

End LightNodeProperties.

Lemma GetPoolTransactions_order_witness :
  let pending : gmap Z (list nat) := <[2 := [20%nat]]> {[1 := [10%nat; 11%nat]]} in
  apibackend.GetPoolTransactions nat unit (pending, None)
    [(2, [20%nat]); (1, [10%nat; 11%nat])]
  = ([20%nat; 10%nat; 11%nat], None)
  /\ [20%nat; 10%nat; 11%nat]
     ≡ₚ concat (snd <$> map_to_list (<[2 := [20%nat]]> ({[1 := [10%nat; 11%nat]]}
                                      : gmap Z (list nat)))).
Proof.
  split; [reflexivity |].
  apply (GetPoolTransactions_order nat unit
           (<[2 := [20%nat]]> {[1 := [10%nat; 11%nat]]})
           [(2, [20%nat]); (1, [10%nat; 11%nat])]).
  rewrite map_to_list_insert by reflexivity.
  now rewrite map_to_list_singleton.
Defined.
